(** * Text-generation and bag-of-words helpers of the NLP notebooks

    A shallow embedding of the hand-written functions of the notebooks
    ([generate], [generate_soft], [decode], [to_bow], [BOWLayer.call] and the
    embedding-matrix population loop) together with the properties that the
    notebooks' description states about them.

    Conventions.
    - Python integers (token ids, indices) are [Z]; lengths and sizes are [nat].
    - Float tensors are lists (of lists). What a model returns, one-hot
      vectors and counts are real numbers: every finite float is one, and
      sums of entries 0 and 1 are exact. What the float arithmetic of
      [generate_soft] returns is a [Float.float], which also has the
      infinities and NaN; that arithmetic ([tf.math.log], [tf.exp], the two
      divisions and [np.sum]) is the library's and rounds as the library
      does, so it is a parameter, [Float.lib].
    - Library calls (the Keras model, the tokenizer, NumPy's generator,
      Word2Vec) are parameters of the sections below.
    - Python exceptions are values of [exn]; a fallible expression evaluates
      to a [result]: a value, or a raised exception.
    - The runs of [generate] and [generate_soft] are recorded as traces of
      their library calls, so that what they do to the outside (the model,
      the random generator) can be stated. *)

From Stdlib Require Import Reals Lra Lia ZArith.
From stdpp Require Import base list strings gmap.

Local Open Scope Z_scope.

(** ** Floats and the library's arithmetic *)

Module Float.

(** A [float32] or [float64] value: a real number, an infinity or NaN. A
    zero has no sign here: with a temperature other than zero, no operation
    applied below tells the two zeros apart. *)
Inductive float : Type :=
| Fin (x : R)
| Inf (negative : bool)
| NaN.

(** The library functions that [generate_soft] applies to floats, each on
    one entry of a tensor: [tf.math.log] on an entry of the model's output,
    the division of a [float32] tensor by the Python float [temperature],
    [tf.exp], [np.sum] of a [float64] vector, and the division of a
    [float64] entry by that sum. They return floats, so each rounds its
    exact result, and can underflow or overflow. *)
Record lib : Type := Lib {
  tf_math_log : R -> float;
  tf_truediv : float -> R -> float;
  tf_exp : float -> float;
  np_sum : list float -> float;
  np_true_divide : float -> float -> float
}.

(** [x] is a finite float within the relative error [eps] of the real [r]. *)
Definition near (eps : R) (x : float) (r : R) : Prop :=
  exists y, x = Fin y /\ (Rabs (y - r) <= eps * Rabs r)%R.

End Float.

(** ** Float tensors *)

Module Tensor.

(** The sum of a vector of real numbers. *)
Definition np_sum (v : list R) : R := foldr Rplus 0%R v.

(** The (1/T)-th powers of the entries, [p_i^(1/T)], and their normalized
    values [p_i^(1/T) / sum_j p_j^(1/T)]. *)
Definition powers (out : list R) (T : R) : list R :=
  map (fun p => Rpower p (1 / T)) out.

Definition normalized_powers (out : list R) (T : R) : list R :=
  map (fun p => (Rpower p (1 / T) / np_sum (powers out T))%R) out.

(** [a.astype(np.float64)] on a [float32] entry: every [float32] value is a
    [float64] value. *)
Definition astype_float64 (x : Float.float) : Float.float := x.

Section Rescale.
Variable L : Float.lib.

(** [tf.exp(tf.math.log(out)/temperature).numpy().astype(np.float64)] *)
Definition unscaled (out : list R) (temperature : R) : list Float.float :=
  map (fun p =>
         astype_float64
           (Float.tf_exp L
              (Float.tf_truediv L (Float.tf_math_log L p) temperature)))
      out.

(** The two lines of [generate_soft] that turn the model's output into the
    vector handed to the sampler:
<<
    probs = tf.exp(tf.math.log(out)/temperature).numpy().astype(np.float64)
    probs = probs/np.sum(probs)
>> *)
Definition rescale (out : list R) (temperature : R) : list Float.float :=
  let probs := unscaled out temperature in
  let s := Float.np_sum L probs in
  map (fun q => Float.np_true_divide L q s) probs.

(** Every library operation of [rescale out T], at the operands it is
    applied to, returns a finite float within the relative error [eps]
    ([eps_sum] for [np.sum]) of its exact result: none of them underflows,
    overflows or meets an invalid operand. *)
Definition accurate (eps eps_sum : R) (out : list R) (T : R) : Prop :=
  (forall p, p ∈ out -> Float.near eps (Float.tf_math_log L p) (ln p))
  /\ (forall p l, p ∈ out ->
        Float.tf_math_log L p = Float.Fin l ->
        Float.near eps (Float.tf_truediv L (Float.Fin l) T) (l / T))
  /\ (forall p l d, p ∈ out ->
        Float.tf_math_log L p = Float.Fin l ->
        Float.tf_truediv L (Float.Fin l) T = Float.Fin d ->
        Float.near eps (Float.tf_exp L (Float.Fin d)) (exp d))
  /\ (forall us, unscaled out T = map Float.Fin us ->
        Float.near eps_sum (Float.np_sum L (map Float.Fin us)) (np_sum us))
  /\ (forall us s u, unscaled out T = map Float.Fin us ->
        Float.np_sum L (map Float.Fin us) = Float.Fin s ->
        u ∈ us ->
        Float.near eps
          (Float.np_true_divide L (Float.Fin u) (Float.Fin s)) (u / s)).

End Rescale.

(** How far rounding can move an entry of [rescale out T] from the
    normalized power, as factors: the errors of the logarithm and of the
    division by [T] sit in the exponent, where [A] bounds [|ln p / T|]. *)
Definition drift (eps A : R) : R := exp (A * (2 * eps + eps * eps)).

Definition lower (eps eps_sum A : R) : R :=
  ((1 - eps) * (1 - eps)
   / ((1 + eps) * (1 + eps_sum) * (drift eps A * drift eps A)))%R.

Definition upper (eps eps_sum A : R) : R :=
  ((1 + eps) * (1 + eps) * (drift eps A * drift eps A)
   / ((1 - eps) * (1 - eps_sum)))%R.

End Tensor.
(** ** Bag of words: [to_bow] and [BOWLayer.call] *)

Module Bow.

(** One row of [tf.one_hot]: [depth] entries, a 1 at position [i] when
    [0 <= i < depth], and zeros only when [i] is out of that range. *)
Definition one_hot_row (i : Z) (depth : nat) : list R :=
  map (fun j : nat => if Z.eqb i (Z.of_nat j) then 1%R else 0%R) (seq 0 depth).

(** [tf.one_hot(indices, depth)] on a vector of indices: shape
    [len(indices), depth]. *)
Definition one_hot (indices : list Z) (depth : nat) : list (list R) :=
  map (fun i => one_hot_row i depth) indices.

(** [tf.one_hot] on a batch of index vectors: shape [batch, len, depth]. *)
Definition one_hot_batch (inp : list (list Z)) (depth : nat)
  : list (list (list R)) :=
  map (fun row => one_hot row depth) inp.

(** [tf.reduce_sum(t, axis=0)] on a tensor of shape [n, cols]: the sum of the
    [n] rows, a vector of [cols] entries (all zero when [n = 0]). *)
Definition reduce_sum_axis0 (cols : nat) (t : list (list R)) : list R :=
  foldr (zip_with Rplus) (replicate cols 0%R) t.

(** [tf.reduce_sum(t, axis=1)] on a tensor of shape [batch, n, cols]. *)
Definition reduce_sum_axis1 (cols : nat) (t : list (list (list R)))
  : list (list R) :=
  map (reduce_sum_axis0 cols) t.

(** The class [BOWLayer]: its only field, and its [call] method: <<
    def call(self,inp):
        return tf.reduce_sum(tf.one_hot(inp,self.vocab_size),axis=1)
    >> *)
Record BOWLayer : Type := mkBOWLayer { layer_vocab_size : nat }.

Definition call (self : BOWLayer) (inp : list (list Z)) : list (list R) :=
  reduce_sum_axis1 (layer_vocab_size self)
                   (one_hot_batch inp (layer_vocab_size self)).

Section ToBow.

(** The adapted [TextVectorization] layer, applied to one text, and the
    global [vocab_size]. *)
Variable vectorizer : string -> list Z.
Variable vocab_size : nat.

(** <<
    def to_bow(text):
        return tf.reduce_sum(tf.one_hot(vectorizer(text),vocab_size),axis=0)
    >> *)
Definition to_bow (text : string) : list R :=
  reduce_sum_axis0 vocab_size (one_hot (vectorizer text) vocab_size).

End ToBow.

(** The number of occurrences of the id [j] in a sequence of ids. *)
Definition occurrences (ids : list Z) (j : nat) : nat :=
  count_occ Z.eq_dec ids (Z.of_nat j).

(** The counting vector: entry [j] is the number of occurrences of [j]. *)
Definition counts (ids : list Z) (depth : nat) : list R :=
  map (fun j => INR (occurrences ids j)) (seq 0 depth).

(** An id is in range when it names a component of the vector. *)
Definition in_range (depth : nat) (i : Z) : bool :=
  Z.leb 0 i && Z.ltb i (Z.of_nat depth).

End Bow.

(** ** Exceptions and fallible computations *)

(** The Python exceptions the modelled code can meet. *)
Inductive exn : Type :=
| IndexError
| KeyError (key : string)
| ValueError
| InvalidArgumentError
| LibraryError (msg : string).

(** The outcome of evaluating a Python expression: a value, or a raised
    exception. *)
Inductive result (A : Type) : Type :=
| Ok (a : A)
| Raise (e : exn).
Arguments Ok {A} a.
Arguments Raise {A} e.

Definition result_bind {A B} (r : result A) (k : A -> result B) : result B :=
  match r with
  | Ok a => k a
  | Raise e => Raise e
  end.

Definition result_map {A B} (f : A -> B) (r : result A) : result B :=
  result_bind r (fun a => Ok (f a)).

Declare Scope result_scope.
Delimit Scope result_scope with result.
Notation "'let?' x ':=' r 'in' k" := (result_bind r (fun x => k))
  (at level 10, x name, r at level 100, k at level 200) : result_scope.

(** ** Indexing and argmax *)

Module Ops.

(** [t[0]] on a tensor: the first slice, an error on an empty dimension. *)
Definition tensor_first {A} (t : list A) : result A :=
  match t with
  | [] => Raise InvalidArgumentError
  | x :: _ => Ok x
  end.

(** [t[-1]] on a tensor: the last slice, an error on an empty dimension. *)
Definition tensor_last {A} (t : list A) : result A :=
  match last t with
  | None => Raise InvalidArgumentError
  | Some x => Ok x
  end.

(** [l[0]] on a Python list. *)
Definition list_first {A} (l : list A) : result A :=
  match l with
  | [] => Raise IndexError
  | x :: _ => Ok x
  end.

(** [tf.expand_dims(t, 0)]: a batch of one. *)
Definition expand_dims0 {A} (t : A) : list A := [t].

(** The index of the first greatest entry: [best_i] is the index of the
    greatest entry [best] seen so far, [i] the index of the head of [l]. *)
Fixpoint argmax_from {A} (ltb : A -> A -> bool)
    (best_i : nat) (best : A) (i : nat) (l : list A) : nat :=
  match l with
  | [] => best_i
  | x :: l' =>
      if ltb best x then argmax_from ltb i x (S i) l'
      else argmax_from ltb best_i best (S i) l'
  end.

Definition argmax {A} (ltb : A -> A -> bool) (l : list A) : option nat :=
  match l with
  | [] => None
  | x :: l' => Some (argmax_from ltb 0 x 1 l')
  end.

Definition Rltb (a b : R) : bool := if Rlt_dec a b then true else false.

(** [tf.argmax(out)] on a vector. *)
Definition tf_argmax (out : list R) : result Z :=
  match argmax Rltb out with
  | None => Raise InvalidArgumentError
  | Some i => Ok (Z.of_nat i)
  end.

(** [np.argmax(a)] on a two-dimensional integer array: the index into the
    flattened array. *)
Definition np_argmax (a : list (list Z)) : result Z :=
  match argmax Z.ltb (concat a) with
  | None => Raise ValueError
  | Some i => Ok (Z.of_nat i)
  end.

(** [i] is the position of the greatest entry of [d], the first one when
    several entries are greatest. *)
Definition is_first_max (d : list R) (i : nat) : Prop :=
  exists x, d !! i = Some x
    /\ (forall (j : nat) (y : R), d !! j = Some y -> (y <= x)%R)
    /\ (forall (j : nat) (y : R), (j < i)%nat -> d !! j = Some y -> (y < x)%R).

End Ops.

(** ** The character-level generator: [decode], [generate], [generate_soft] *)

Module Gen.

(** *** Python lists as heap objects

    [chars = inp] makes two names for one list object, and [chars.append]
    mutates it in place, so the local lists live in a store: a reference is
    an index into it. The references of [locals] are always valid (see
    [inv]), so [deref] never meets its default. *)
Abbreviation loc := nat (only parsing).
Abbreviation heap := (list (list Z)) (only parsing).

Definition deref (h : heap) (l : loc) : list Z := default [] (h !! l).

(** [l.append(x)]: in place. *)
Definition append (h : heap) (l : loc) (x : Z) : heap :=
  alter (fun v => v ++ [x]) l h.

(** The fresh list object that an expression such as [a + [x]] builds. *)
Definition new_list (h : heap) (v : list Z) : heap * loc :=
  (h ++ [v], length h).

(** The local variables of [generate] and [generate_soft]. *)
Record locals : Type := Locals { store : heap; inp : loc; chars : loc }.

(** *** Observable library calls *)

(** What the next token is computed from: the model's output, for
    [tf.argmax(out)], or the vector [probs] handed to the sampler. *)
Inductive dist : Type :=
| Scores (out : list R)
| Probs (probs : list Float.float).

(** What a run does to the outside: the evaluations of
    [model(...)[0][-1]] on the one-hot encoding of the token list [inp],
    and the evaluations of the statement that computes the next token [nc]
    from a distribution, each with its result. *)
Inductive event : Type :=
| EvModel (inp : list Z) (out : result (list R))
| EvToken (d : dist) (nc : result Z).

Definition model_inputs (E : list event) : list (list Z) :=
  omap (fun ev => match ev with EvModel i _ => Some i | _ => None end) E.

Definition picks (E : list event) : list (result Z) :=
  omap (fun ev => match ev with EvToken _ r => Some r | _ => None end) E.

(** The vectors handed to the sampler, in the order of the calls. *)
Definition sampled (E : list event) : list (list Float.float) :=
  omap (fun ev => match ev with
                  | EvToken (Probs probs) _ => Some probs
                  | _ => None
                  end) E.

(** A library call of the trace that raised [e]. *)
Definition failed (ev : event) (e : exn) : Prop :=
  match ev with
  | EvModel _ (Raise e') => e' = e
  | EvToken _ (Raise e') => e' = e
  | _ => False
  end.

(** A Keras model applied to a batch of one-hot sequences. *)
Definition keras_model : Type :=
  list (list (list R)) -> result (list (list (list R))).

(** *** The dictionary of the tokenizer *)

(** A Python [dict] with its items in insertion order. *)
Abbreviation dict := (list (string * Z)) (only parsing).

(** [d[k] = v]. *)
Fixpoint dict_set (d : dict) (k : string) (v : Z) : dict :=
  match d with
  | [] => [(k, v)]
  | (k', v') :: d' =>
      if String.eqb k' k then (k', v) :: d' else (k', v') :: dict_set d' k v
  end.

(** [decode] with the table [m] in place of [reverse_map]. *)
Definition decode_with (m : gmap Z string) (x : list Z) : string :=
  String.concat "" (map (fun t => default "" (m !! t)) x).

(** *** The functions *)

Section Generation.

(** The state of NumPy's global random generator, and
    [np.random.multinomial(n, pvals, size)], which reads and advances it. *)
Variable rng : Type.
Variable np_random_multinomial :
  rng -> Z -> list Float.float -> Z -> result (list (list Z)) * rng.

(** The float arithmetic of TensorFlow and NumPy. *)
Variable lib : Float.lib.

(** [tokenizer.word_index] as [fit_on_texts] left it, and the tokenizer's
    method [texts_to_sequences], which reads the current [word_index]. *)
Variable word_index0 : dict.
Variable texts_to_sequences : dict -> list string -> list (list Z).

(** <<
    eos_token = len(tokenizer.word_index)+1
    tokenizer.word_index['<eos>'] = eos_token
    vocab_size = eos_token + 1
    >> *)
Definition eos_token : Z := Z.of_nat (length word_index0) + 1.
Definition word_index : dict := dict_set word_index0 "<eos>" eos_token.
Definition vocab_size : Z := eos_token + 1.

(** [reverse_map = {val:key for key, val in tokenizer.word_index.items()}] *)
Definition reverse_map : gmap Z string :=
  foldl (fun m kv => <[kv.2 := kv.1]> m) ∅ word_index.

(** <<
    def decode(x):
        return ''.join([reverse_map.get(t,'') for t in x])
    >> *)
Definition decode (x : list Z) : string :=
  String.concat "" (map (fun t => default "" (reverse_map !! t)) x).

(** The world outside the functions: the generator's state and the
    library calls made so far. *)
Record world : Type := World { np_random : rng; trace : list event }.

(** A computation reads and changes the world, and returns or raises. *)
Definition M (A : Type) : Type := world -> result A * world.

Definition ret {A} (a : A) : M A := fun w => (Ok a, w).

Definition bind {A B} (c : M A) (k : A -> M B) : M B :=
  fun w =>
    match c w with
    | (Ok a, w') => k a w'
    | (Raise e, w') => (Raise e, w')
    end.

Definition lift {A} (r : result A) : M A := fun w => (r, w).

Notation "'do' x <- c ; k" := (bind c (fun x => k))
  (at level 10, x name, c at level 100, k at level 200).

(** [model(tf.expand_dims(tf.one_hot(inp,vocab_size),0))[0][-1]] *)
Definition next_out (model : keras_model) (inp : list Z) : result (list R) :=
  (let? y := model (Ops.expand_dims0
                      (Bow.one_hot inp (Z.to_nat vocab_size))) in
   let? s := Ops.tensor_first y in
   Ops.tensor_last s)%result.

(** [out = model(...)[0][-1]] *)
Definition model_step (model : keras_model) (inp : list Z) : M (list R) :=
  fun w =>
    let r := next_out model inp in
    (r, World (np_random w) (trace w ++ [EvModel inp r])).

(** [nc = tf.argmax(out)] *)
Definition greedy_pick (out : list R) : M Z :=
  fun w =>
    let r := Ops.tf_argmax out in
    (r, World (np_random w) (trace w ++ [EvToken (Scores out) r])).

(** [nc = np.argmax(np.random.multinomial(1,probs,1))] *)
Definition soft_pick (probs : list Float.float) : M Z :=
  fun w =>
    let '(a, g) := np_random_multinomial (np_random w) 1 probs 1 in
    let r := (let? arr := a in Ops.np_argmax arr)%result in
    (r, World g (trace w ++ [EvToken (Probs probs) r])).

(** [tokenizer.texts_to_sequences([start])[0]] *)
Definition encode_seed (start : string) : result (list Z) :=
  Ops.list_first (texts_to_sequences word_index [start]).

(** The loop of [generate], with [n] iterations left: <<
    for i in range(size):
        out = model(tf.expand_dims(tf.one_hot(inp,vocab_size),0))[0][-1]
        nc = tf.argmax(out)
        if nc==eos_token:
            break
        chars.append(nc.numpy())
        inp = inp+[nc]
    >> *)
Fixpoint generate_loop (model : keras_model) (n : nat) (l : locals)
  : M locals :=
  match n with
  | O => ret l
  | S n' =>
      do out <- model_step model (deref (store l) (inp l));
      do nc <- greedy_pick out;
      if Z.eqb nc eos_token then ret l
      else
        let h1 := append (store l) (chars l) nc in
        let '(h2, inp') := new_list h1 (deref h1 (inp l) ++ [nc]) in
        generate_loop model n' (Locals h2 inp' (chars l))
  end.

(** <<
    def generate(model,size=100,start='Today '):
        inp = tokenizer.texts_to_sequences([start])[0]
        chars = inp
        for i in range(size):
            ...
        return decode(chars)
    >> *)
Definition generate (model : keras_model) (size : Z) (start : string)
  : M string :=
  do inp0 <- lift (encode_seed start);
  let l0 := Locals [inp0] 0%nat 0%nat in
  do l <- generate_loop model (Z.to_nat size) l0;
  ret (decode (deref (store l) (chars l))).

(** The loop of [generate_soft], with [n] iterations left: <<
    for i in range(size):
        out = model(tf.expand_dims(tf.one_hot(inp,vocab_size),0))[0][-1]
        probs = tf.exp(tf.math.log(out)/temperature).numpy().astype(np.float64)
        probs = probs/np.sum(probs)
        nc = np.argmax(np.random.multinomial(1,probs,1))
        if nc==eos_token:
            break
        chars.append(nc)
        inp = inp+[nc]
    >> *)
Fixpoint generate_soft_loop (model : keras_model) (temperature : R)
    (n : nat) (l : locals) : M locals :=
  match n with
  | O => ret l
  | S n' =>
      do out <- model_step model (deref (store l) (inp l));
      let probs := Tensor.rescale lib out temperature in
      do nc <- soft_pick probs;
      if Z.eqb nc eos_token then ret l
      else
        let h1 := append (store l) (chars l) nc in
        let '(h2, inp') := new_list h1 (deref h1 (inp l) ++ [nc]) in
        generate_soft_loop model temperature n' (Locals h2 inp' (chars l))
  end.

(** <<
    def generate_soft(model,size=100,start='Today ',temperature=1.0):
        inp = tokenizer.texts_to_sequences([start])[0]
        chars = inp
        for i in range(size):
            ...
        return decode(chars)
    >> *)
Definition generate_soft (model : keras_model) (size : Z) (start : string)
    (temperature : R) : M string :=
  do inp0 <- lift (encode_seed start);
  let l0 := Locals [inp0] 0%nat 0%nat in
  do l <- generate_soft_loop model temperature (Z.to_nat size) l0;
  ret (decode (deref (store l) (chars l))).

(** A call from a notebook cell: the generator is in state [g], and the
    library calls of the run are recorded from an empty trace. *)
Definition run {A} (c : M A) (g : rng) : result A * world :=
  c (World g []).

(** *** The loop as the description words it *)

(** The shape the two loops share: they differ only in the statement that
    computes [nc] from [out]. *)
Fixpoint loop_with (pick : list R -> M Z) (model : keras_model) (n : nat)
    (l : locals) : M locals :=
  match n with
  | O => ret l
  | S n' =>
      do out <- model_step model (deref (store l) (inp l));
      do nc <- pick out;
      if Z.eqb nc eos_token then ret l
      else
        let h1 := append (store l) (chars l) nc in
        let '(h2, inp') := new_list h1 (deref h1 (inp l) ++ [nc]) in
        loop_with pick model n' (Locals h2 inp' (chars l))
  end.

(** A statement computing [nc] records one [EvToken] on [prep out]. *)
Definition pick_logs (prep : list R -> dist) (pick : list R -> M Z) : Prop :=
  forall out w, exists r g,
    pick out w = (r, World g (trace w ++ [EvToken (prep out) r])).

(** [feed seed gs] is the list bound to [inp] once the tokens [gs] have been
    generated from the seed: the first generated token stands twice in it,
    because [chars.append] has already put it into the list that [inp] names
    when [inp + [nc]] copies that list for the first time. *)
Definition feed (seed gs : list Z) : list Z := seed ++ take 1 gs ++ gs.

(** [loop_trace model prep seed n gs E r]: [n] remaining iterations, started
    with the generated tokens [gs], make the library calls [E] and end with
    the generated tokens [r], or with an exception. Each iteration runs the
    model once on the current [inp] and computes one token from [prep out];
    it ends the loop when the token is [eos_token], and appends the token
    otherwise. *)
Inductive loop_trace (model : keras_model) (prep : list R -> dist)
    (seed : list Z) : nat -> list Z -> list event -> result (list Z) -> Prop :=
| lt_exhausted gs :
    loop_trace model prep seed 0 gs [] (Ok gs)
| lt_model_raises n gs e :
    next_out model (feed seed gs) = Raise e ->
    loop_trace model prep seed (S n) gs
      [EvModel (feed seed gs) (Raise e)] (Raise e)
| lt_pick_raises n gs out e :
    next_out model (feed seed gs) = Ok out ->
    loop_trace model prep seed (S n) gs
      [EvModel (feed seed gs) (Ok out); EvToken (prep out) (Raise e)] (Raise e)
| lt_eos n gs out :
    next_out model (feed seed gs) = Ok out ->
    loop_trace model prep seed (S n) gs
      [EvModel (feed seed gs) (Ok out); EvToken (prep out) (Ok eos_token)]
      (Ok gs)
| lt_append n gs out nc E r :
    next_out model (feed seed gs) = Ok out ->
    nc <> eos_token ->
    loop_trace model prep seed n (gs ++ [nc]) E r ->
    loop_trace model prep seed (S n) gs
      (EvModel (feed seed gs) (Ok out) :: EvToken (prep out) (Ok nc) :: E) r.

(** What a run of either function amounts to: without a seed it raises
    before any library call; with the seed [seed] its calls are those of the
    loop, and it returns the decoded seed and generated tokens. *)
Definition run_outcome (model : keras_model) (prep : list R -> dist)
    (size : Z) (start : string) (res : result string) (w : world) : Prop :=
  match encode_seed start with
  | Raise e => res = Raise e /\ trace w = []
  | Ok seed =>
      exists toks,
        loop_trace model prep seed (Z.to_nat size) [] (trace w) toks
        /\ res = result_map (fun gs => decode (seed ++ gs)) toks
  end.

(** The sampler called once on each vector of [ds] in turn, from the state
    [g] of the generator: the tokens
    [np.argmax(np.random.multinomial(1,probs,1))] it gives, and the state it
    leaves the generator in. *)
Fixpoint draws (g : rng) (ds : list (list Float.float))
  : list (result Z) * rng :=
  match ds with
  | [] => ([], g)
  | probs :: ds' =>
      let '(a, g') := np_random_multinomial g 1 probs 1 in
      let '(rs, g'') := draws g' ds' in
      ((let? arr := a in Ops.np_argmax arr)%result :: rs, g'')
  end.

(** The tokens a run appended: the computed tokens other than [eos_token]. *)
Definition appended (E : list event) : list Z :=
  omap (fun ev => match ev with
                  | EvToken _ (Ok nc) =>
                      if Z.eqb nc eos_token then None else Some nc
                  | _ => None
                  end) E.

End Generation.

(** How the local variables stand once the tokens [gs] have been generated
    from the seed: [chars] is the seed's own list, grown in place; [inp] is
    that same object before the first token and a fresh list afterwards. *)
Record inv (seed gs : list Z) (l : locals) : Prop := Inv {
  inv_chars : (chars l < length (store l))%nat;
  inv_inp : (inp l < length (store l))%nat;
  inv_chars_val : deref (store l) (chars l) = seed ++ gs;
  inv_inp_val : deref (store l) (inp l) = feed seed gs;
  inv_alias : gs = [] <-> inp l = chars l
}.

(** The effect of [chars = inp] on what the model is fed, for a run with the
    library calls [E] that generated the tokens [gs] from the seed [seed]:
    the first call sees the seed, and call [k+2] sees the seed, the first
    generated token twice, and the next [k] generated tokens. *)
Definition fed_first_token_twice (seed gs : list Z) (E : list event) : Prop :=
  (forall i, model_inputs E !! 0%nat = Some i -> i = seed)
  /\ (forall (k : nat) (g1 : Z) (rest i : list Z),
        gs = g1 :: rest ->
        model_inputs E !! S k = Some i ->
        i = seed ++ [g1; g1] ++ take k rest).

End Gen.

(** ** The embedding-matrix population cell *)

Module Embed.

Abbreviation matrix := (list (list R)) (only parsing).

(** [np.zeros((rows, cols))] *)
Definition zeros (rows cols : nat) : matrix :=
  replicate rows (replicate cols 0%R).

(** [W[i] = v] on a matrix with [cols] columns: [i] must be a row of [W],
    and [v] must have [cols] entries or broadcast from a single one. *)
Definition set_row (W : matrix) (cols i : nat) (v : list R) : result matrix :=
  if decide (i < length W)%nat then
    if decide (length v = cols) then Ok (<[i := v]> W)
    else match v with
         | [x] => Ok (<[i := replicate cols x]> W)
         | _ => Raise ValueError
         end
  else Raise IndexError.

(** The variables the loop updates. *)
Record state : Type := State { W : matrix; found : nat; not_found : nat }.

Section Populate.
(** [w2v.get_vector], [vectorizer.get_vocabulary()] and [VOCAB_SIZE]. *)
Variable get_vector : string -> result (list R).
Variable vocab : list string.
Variable VOCAB_SIZE : nat.

(** The [try] block: <<
        W[i] = w2v.get_vector(w)
        found+=1
    >> *)
Definition try_block (EMBED_SIZE : nat) (s : state) (i : nat) (w : string)
  : result state :=
  (let? v := get_vector w in
   let? W' := set_row (W s) EMBED_SIZE i v in
   Ok (State W' (found s + 1) (not_found s)))%result.

(** The loop body: <<
    try:
        ...
    except:
        # W[i] = np.random.normal(0.0,0.3,size=(embed_size,))
        not_found+=1
    >> *)
Definition body (EMBED_SIZE : nat) (s : state) (i : nat) (w : string)
  : result state :=
  match try_block EMBED_SIZE s i w with
  | Ok s' => Ok s'
  | Raise _ => Ok (State (W s) (found s) (not_found s + 1))
  end.

(** [for i,w in enumerate(vocab)], from index [i] on. *)
Fixpoint populate_from (EMBED_SIZE : nat) (i : nat) (ws : list string)
    (s : state) : result state :=
  match ws with
  | [] => Ok s
  | w :: ws' =>
      (let? s' := body EMBED_SIZE s i w in
       populate_from EMBED_SIZE (S i) ws' s')%result
  end.

(** The cell: <<
    EMBED_SIZE = len(w2v.get_vector('hello'))
    vocab = vectorizer.get_vocabulary()
    W = np.zeros((VOCAB_SIZE,EMBED_SIZE))
    found, not_found = 0,0
    for i,w in enumerate(vocab):
        ...
    >> *)
Definition populate : result state :=
  (let? hello := get_vector "hello" in
   let EMBED_SIZE := length hello in
   populate_from EMBED_SIZE 0 vocab
     (State (zeros VOCAB_SIZE EMBED_SIZE) 0 0))%result.

(** The words of [vocab] that Word2Vec knows, and those it does not. *)
Definition known (w : string) : bool :=
  match get_vector w with Ok _ => true | Raise _ => false end.

End Populate.

End Embed.

(** ** Concrete libraries for the examples *)

Module Demo.

(** [d.get(k)] on a Python dict. *)
Fixpoint dict_get (d : Gen.dict) (k : string) : option Z :=
  match d with
  | [] => None
  | (k', v) :: d' => if String.eqb k' k then Some v else dict_get d' k
  end.

(** The Keras [Tokenizer] with [char_level=True] and no out-of-vocabulary
    token: every character of the text is looked up in [word_index], and a
    character without an entry is skipped. *)
Definition char_level_sequence (d : Gen.dict) (text : string) : list Z :=
  omap (fun c => dict_get d (String c EmptyString))
       (String.list_ascii_of_string text).

Definition texts_to_sequences (d : Gen.dict) (texts : list string)
  : list (list Z) :=
  map (char_level_sequence d) texts.

(** A generator that replays a tape of outcomes: a draw of
    [multinomial(1, pvals, 1)] returns the one-hot row of the next outcome on
    the tape and advances the tape. *)
Definition tape_multinomial (g : list Z) (n : Z) (pvals : list Float.float)
    (size : Z)
  : result (list (list Z)) * list Z :=
  match g with
  | [] => (Raise ValueError, [])
  | k :: g' =>
      (Ok [map (fun j : nat => if Z.eqb k (Z.of_nat j) then 1 else 0)
               (seq 0 (length pvals))], g')
  end.

(** An ideal float library: every operation returns its exact result. *)
Definition float_add (x y : Float.float) : Float.float :=
  match x, y with
  | Float.Fin a, Float.Fin b => Float.Fin (a + b)
  | Float.NaN, _ | _, Float.NaN => Float.NaN
  | Float.Inf s, Float.Inf s' => if Bool.eqb s s' then Float.Inf s else Float.NaN
  | Float.Inf s, _ | _, Float.Inf s => Float.Inf s
  end.

Definition float_sum (v : list Float.float) : Float.float :=
  foldr float_add (Float.Fin 0) v.

Definition real_lib : Float.lib :=
  {| Float.tf_math_log := fun p => Float.Fin (ln p);
     Float.tf_truediv := fun x t =>
       match x with Float.Fin l => Float.Fin (l / t) | _ => x end;
     Float.tf_exp := fun x =>
       match x with
       | Float.Fin d => Float.Fin (exp d)
       | Float.Inf true => Float.Fin 0
       | _ => x
       end;
     Float.np_sum := float_sum;
     Float.np_true_divide := fun x y =>
       match x, y with
       | Float.Fin a, Float.Fin b => Float.Fin (a / b)
       | _, _ => Float.NaN
       end |}.

(** The [float32] numbers nearest to 0.1, 0.9, 0.3 and 0.7. *)
Definition f32_0_1 : R := 13421773 / 134217728.
Definition f32_0_9 : R := 7549747 / 8388608.
Definition f32_0_3 : R := 5033165 / 16777216.
Definition f32_0_7 : R := 11744051 / 16777216.

(** The [float32] logarithms of these four numbers, and the [float32]
    exponentials of the first two logarithms: the exact values rounded to
    the nearest [float32]. [exp(log(x))] gives back 0.9 but not 0.1. *)
Definition log_table : list (R * R) :=
  [(f32_0_1, - (4828871 / 2097152)); (f32_0_9, - (14141253 / 134217728));
   (f32_0_3, - (1262457 / 1048576)); (f32_0_7, - (5984013 / 16777216))]%R.

Definition exp_table : list (R * R) :=
  [(- (4828871 / 2097152), 3355443 / 33554432);
   (- (14141253 / 134217728), f32_0_9)]%R.

Fixpoint table_get (t : list (R * R)) (x : R) : option R :=
  match t with
  | [] => None
  | (k, v) :: t' => if Req_EM_T x k then Some v else table_get t' x
  end.

(** A stand-in for the [float32] library. The logarithm and the
    exponential return the rounded values of the tables at the operands
    listed there, and exact values elsewhere; the exponential underflows to
    zero below -104, where [e^x] is less than half the least positive
    [float32], 2^-149; zero divided by zero is NaN. The divisions and the
    sum are exact otherwise. *)
Definition float32_log (p : R) : Float.float :=
  match table_get log_table p with
  | Some l => Float.Fin l
  | None =>
      if Rlt_dec 0 p then Float.Fin (ln p)
      else if Req_EM_T p 0 then Float.Inf true else Float.NaN
  end.

Definition float32_exp (x : Float.float) : Float.float :=
  match x with
  | Float.Fin d =>
      if Rle_dec d (-104) then Float.Fin 0
      else match table_get exp_table d with
           | Some u => Float.Fin u
           | None => Float.Fin (exp d)
           end
  | Float.Inf true => Float.Fin 0
  | _ => x
  end.

Definition float_divide (x y : Float.float) : Float.float :=
  match x, y with
  | Float.Fin a, Float.Fin b =>
      if Req_EM_T b 0 then
        if Req_EM_T a 0 then Float.NaN
        else Float.Inf (if Rlt_dec a 0 then true else false)
      else Float.Fin (a / b)
  | Float.Fin _, Float.Inf _ => Float.Fin 0
  | Float.Inf s, Float.Fin b =>
      Float.Inf (if Rlt_dec b 0 then negb s else s)
  | _, _ => Float.NaN
  end.

Definition float32_lib : Float.lib :=
  {| Float.tf_math_log := float32_log;
     Float.tf_truediv := fun x t => float_divide x (Float.Fin t);
     Float.tf_exp := float32_exp;
     Float.np_sum := float_sum;
     Float.np_true_divide := float_divide |}.

(** A model that answers the distribution [d] at every position. *)
Definition const_model (d : list R) : Gen.keras_model :=
  fun batch => Ok (map (map (fun _ => d)) batch).

(** The uniform distribution over [n] tokens. *)
Definition uniform (n : nat) : list R := replicate n (1 / INR n)%R.

(** A distribution over four tokens with its greatest entry at index 2. *)
Definition peak : list R := [0%R; (1/10)%R; (7/10)%R; (2/10)%R].

(** A model that has not been built. *)
Definition untrained_model : Gen.keras_model :=
  fun _ => Raise (LibraryError "model not yet trained").

(** Word2Vec with the single word "hello". *)
Definition tiny_w2v (w : string) : result (list R) :=
  if String.eqb w "hello" then Ok [1%R; 2%R] else Raise (KeyError w).

(** Character vocabularies. *)
Definition ab_index : Gen.dict := [("a", 1); ("b", 2)].
Definition markup_index : Gen.dict :=
  [("e", 1); ("o", 2); ("s", 3); ("<", 4); (">", 5)].

(** [generate_soft] and [generate] over the vocabulary [d], with the tape
    generator, the character-level tokenizer and the [float32] stand-in;
    [generate_soft] at
    temperature 1 with the model that answers the uniform distribution over
    the [vocab_size] tokens. *)
Definition uniform_model (d : Gen.dict) : Gen.keras_model :=
  const_model (uniform (Z.to_nat (Gen.vocab_size d))).

Definition soft (d : Gen.dict) (size : Z) (start : string) (tape : list Z)
  : result string * Gen.world (list Z) :=
  Gen.run (list Z)
    (Gen.generate_soft (list Z) tape_multinomial float32_lib d
       texts_to_sequences (uniform_model d) size start 1%R) tape.

Definition greedy (d : Gen.dict) (model : Gen.keras_model) (size : Z)
    (start : string) (tape : list Z) : result string * Gen.world (list Z) :=
  Gen.run (list Z)
    (Gen.generate (list Z) d texts_to_sequences model size start) tape.

End Demo.

(** ** The tokenizer's table, as the tokenizer numbers it *)

Module Vocab.

(** The three facts about [tokenizer.word_index] that the round trips of
    [decode] rest on: the marker is not a key, no index is used twice, and
    no index exceeds the number of keys (the tokenizer numbers its keys
    1, 2, ...). *)
Definition well_numbered (word_index0 : Gen.dict) : Prop :=
  ("<eos>" ∉ word_index0.*1)
  /\ NoDup word_index0.*2
  /\ Forall (fun kv => kv.2 <= Z.of_nat (length word_index0)) word_index0.

End Vocab.

(** ** Training batches: [title_batch] *)

Module Batch.

(** [z[:,1:]] on a two-dimensional array. *)
Definition drop_first_column (z : list (list Z)) : list (list Z) :=
  map (drop 1) z.

(** [tf.constant(v, shape=(n,1))] *)
Definition constant_column (v : Z) (n : nat) : list (list Z) :=
  replicate n [v].

(** [tf.concat([a, b], axis=1)] on two arrays with the same number of
    rows. *)
Definition concat_axis1 (a b : list (list Z)) : list (list Z) :=
  zip_with app a b.

Section TitleBatch.

(** The tokenizer's table and method, and
    [tf.keras.preprocessing.sequence.pad_sequences], which returns a
    two-dimensional array or raises. *)
Variable word_index0 : Gen.dict.
Variable texts_to_sequences : Gen.dict -> list string -> list (list Z).
Variable pad_sequences : list (list Z) -> result (list (list Z)).

(** The first two lines of [title_batch] after the titles are decoded: <<
    z = tokenizer.texts_to_sequences(x)
    z = tf.keras.preprocessing.sequence.pad_sequences(z)
    >> *)
Definition padded (x : list string) : result (list (list Z)) :=
  pad_sequences (texts_to_sequences (Gen.word_index word_index0) x).

(** <<
    def title_batch(x):
        x = [t.numpy().decode('utf-8') for t in x]
        z = tokenizer.texts_to_sequences(x)
        z = tf.keras.preprocessing.sequence.pad_sequences(z)
        return tf.one_hot(z,vocab_size), tf.one_hot(tf.concat([z[:,1:],tf.constant(eos_token,shape=(len(z),1))],axis=1),vocab_size)
    >>
    [x] is the list of the decoded titles. *)
Definition title_batch (x : list string)
  : result (list (list (list R)) * list (list (list R))) :=
  (let? z := padded x in
   let V := Z.to_nat (Gen.vocab_size word_index0) in
   Ok (Bow.one_hot_batch z V,
       Bow.one_hot_batch
         (concat_axis1 (drop_first_column z)
            (constant_column (Gen.eos_token word_index0) (length z)))
         V))%result.

End TitleBatch.

(** [pad_sequences] with its defaults: every sequence is padded in front
    with zeros to the length of the longest one; no sequence at all is an
    error. *)
Definition keras_pad_sequences (seqs : list (list Z))
  : result (list (list Z)) :=
  match seqs with
  | [] => Raise ValueError
  | _ =>
      let m := max_list (map length seqs) in
      Ok (map (fun s => replicate (m - length s) 0 ++ s) seqs)
  end.

End Batch.

(** ** What one pass of the population loop stores *)

Module Fill.

Section Fill.
Variable get_vector : string -> result (list R).

(** The row that <<W[i] = w2v.get_vector(w)>> stores in a matrix of [rows]
    rows and [cols] columns, when the assignment succeeds. *)
Definition written (cols rows i : nat) (w : string) : option (list R) :=
  match get_vector w with
  | Ok v =>
      if decide (i < rows)%nat then
        if decide (length v = cols) then Some v
        else match v with
             | [x] => Some (replicate cols x)
             | _ => None
             end
      else None
  | Raise _ => None
  end.

(** The number of words of [ws], enumerated from [i], whose assignment
    succeeds. *)
Fixpoint hits (cols rows i : nat) (ws : list string) : nat :=
  match ws with
  | [] => 0
  | w :: ws' =>
      ((match written cols rows i w with Some _ => 1 | None => 0 end)
       + hits cols rows (S i) ws')%nat
  end.

End Fill.

End Fill.
(** ** Temperature rescaling *)

Lemma Rabs_le_between (x y : R) : (Rabs x <= y -> - y <= x <= y)%R.
Proof. unfold Rabs. destruct (Rcase_abs x); lra. Qed.

Lemma exp_le_mono (x y : R) : (x <= y -> exp x <= exp y)%R.
Proof.
  intros [Hlt| ->]; [|lra]. left. now apply exp_increasing.
Qed.

Lemma exp_log_div_is_power (p T : R) :
  (T <> 0)%R -> exp (ln p / T) = Rpower p (1 / T).
Proof.
  intros HT. unfold Rpower. f_equal. now field.
Qed.

Lemma drift_pos (eps A : R) : (0 < Tensor.drift eps A)%R.
Proof. apply exp_pos. Qed.

(** A finite float within [eps] of a positive real. *)
Lemma near_positive (eps : R) (x : Float.float) (r : R) :
  (0 <= r)%R -> Float.near eps x r ->
  exists y, x = Float.Fin y /\ ((1 - eps) * r <= y <= (1 + eps) * r)%R.
Proof.
  intros Hr (y & -> & Hy). exists y. split; [reflexivity|].
  rewrite (Rabs_pos_eq r Hr) in Hy. apply Rabs_le_between in Hy. lra.
Qed.

(** The exponent [ln p / T], computed with two roundings, is within
    [2 eps + eps^2] of the exact one, relatively. *)
Lemma exponent_error (eps X T l d : R) :
  (0 <= eps)%R ->
  (Rabs (l - X) <= eps * Rabs X)%R ->
  (Rabs (d - l / T) <= eps * Rabs (l / T))%R ->
  (Rabs (d - X / T) <= (2 * eps + eps * eps) * Rabs (X / T))%R.
Proof.
  intros Heps Hl Hd. unfold Rdiv in *.
  rewrite Rabs_mult in *. set (k := Rabs (/ T)) in *.
  assert (Hk : (0 <= k)%R) by apply Rabs_pos.
  assert (HX : (0 <= Rabs X)%R) by apply Rabs_pos.
  assert (Hll : (Rabs l <= Rabs X + eps * Rabs X)%R).
  { replace l with (X + (l - X))%R at 1 by ring.
    eapply Rle_trans; [apply Rabs_triang|]. lra. }
  replace (d - X * / T)%R with ((d - l * / T) + (l - X) * / T)%R by ring.
  eapply Rle_trans; [apply Rabs_triang|].
  rewrite Rabs_mult. fold k.
  assert (H1 : (eps * (Rabs l * k) <= eps * ((Rabs X + eps * Rabs X) * k))%R).
  { apply Rmult_le_compat_l; [exact Heps|].
    apply Rmult_le_compat_r; [exact Hk|exact Hll]. }
  assert (H2 : (Rabs (l - X) * k <= eps * Rabs X * k)%R).
  { apply Rmult_le_compat_r; [exact Hk|exact Hl]. }
  lra.
Qed.

(** One entry of [unscaled]: the three roundings move [p^(1/T)] by a factor
    between [(1 - eps) / drift] and [(1 + eps) * drift]. *)
Lemma unscaled_entry_bound (eps A p T l d u : R) :
  (0 <= eps < 1)%R -> (T <> 0)%R ->
  (Rabs (ln p / T) <= A)%R ->
  (Rabs (l - ln p) <= eps * Rabs (ln p))%R ->
  (Rabs (d - l / T) <= eps * Rabs (l / T))%R ->
  (Rabs (u - exp d) <= eps * Rabs (exp d))%R ->
  ((1 - eps) / Tensor.drift eps A * Rpower p (1 / T) <= u
   <= (1 + eps) * Tensor.drift eps A * Rpower p (1 / T))%R.
Proof.
  intros Heps HT HA Hl Hd Hu.
  pose proof (exponent_error eps (ln p) T l d (proj1 Heps) Hl Hd) as He.
  set (a := (ln p / T)%R) in *.
  set (eta := (2 * eps + eps * eps)%R) in *.
  assert (Heta : (0 <= eta)%R) by (subst eta; nra).
  assert (Hda : (Rabs (d - a) <= A * eta)%R).
  { eapply Rle_trans; [exact He|]. rewrite Rmult_comm.
    apply Rmult_le_compat_r; [exact Heta|exact HA]. }
  apply Rabs_le_between in Hda.
  rewrite <- (exp_log_div_is_power p T HT). fold a.
  unfold Tensor.drift. fold eta.
  pose proof (exp_pos d) as Hpd. pose proof (exp_pos a) as Hpa.
  pose proof (exp_pos (A * eta)) as Hpg.
  assert (Hhi : (exp d <= exp (A * eta) * exp a)%R).
  { rewrite <- exp_plus. apply exp_le_mono. lra. }
  assert (Hlo : (exp a / exp (A * eta) <= exp d)%R).
  { unfold Rdiv. rewrite <- exp_Ropp, <- exp_plus. apply exp_le_mono. lra. }
  rewrite (Rabs_pos_eq (exp d)) in Hu by lra.
  apply Rabs_le_between in Hu.
  split.
  - apply Rle_trans with ((1 - eps) * exp d)%R; [|lra].
    replace ((1 - eps) / exp (A * eta) * exp a)%R
      with ((1 - eps) * (exp a / exp (A * eta)))%R by (field; lra).
    apply Rmult_le_compat_l; [lra|exact Hlo].
  - apply Rle_trans with ((1 + eps) * exp d)%R; [lra|].
    rewrite Rmult_assoc. apply Rmult_le_compat_l; [lra|exact Hhi].
Qed.

Lemma np_sum_between (f : R -> R) (lo hi : R) (ps us : list R) :
  Forall2 (fun p u => (lo * f p <= u <= hi * f p)%R) ps us ->
  (lo * Tensor.np_sum (map f ps) <= Tensor.np_sum us
   <= hi * Tensor.np_sum (map f ps))%R.
Proof.
  unfold Tensor.np_sum.
  induction 1 as [|p u ps us Hpu _ IH]; simpl; [lra|].
  rewrite !Rmult_plus_distr_l. lra.
Qed.

Lemma np_sum_powers_positive (out : list R) (T : R) :
  out <> [] -> (0 < Tensor.np_sum (Tensor.powers out T))%R.
Proof.
  unfold Tensor.np_sum, Tensor.powers.
  destruct out as [|p out]; [done|]. intros _. simpl.
  assert (H : (0 <= foldr Rplus 0 (map (fun p => Rpower p (1 / T)) out))%R).
  { induction out as [|q out IH]; simpl; [lra|].
    pose proof (exp_pos (1 / T * ln q)). unfold Rpower at 1. lra. }
  pose proof (exp_pos (1 / T * ln p)). unfold Rpower at 1. lra.
Qed.

Lemma quotient_between (x u s lo hi sl sh : R) :
  (0 < x)%R -> (0 < lo)%R -> (lo * x <= u <= hi * x)%R ->
  (0 < sl)%R -> (sl <= s <= sh)%R ->
  (lo * x / sh <= u / s <= hi * x / sl)%R.
Proof.
  intros Hx Hlo Hu Hsl Hs.
  assert (Hlx : (0 < lo * x)%R) by now apply Rmult_lt_0_compat.
  assert (His : (/ sh <= / s <= / sl)%R).
  { split; apply Rinv_le_contravar; lra. }
  assert (Hps : (0 < / s)%R) by (apply Rinv_0_lt_compat; lra).
  assert (Hpsh : (0 < / sh)%R) by (apply Rinv_0_lt_compat; lra).
  unfold Rdiv. split.
  - apply Rle_trans with (lo * x * / s)%R.
    + apply Rmult_le_compat_l; lra.
    + apply Rmult_le_compat_r; lra.
  - apply Rle_trans with (hi * x * / s)%R.
    + apply Rmult_le_compat_r; lra.
    + apply Rmult_le_compat_l; lra.
Qed.

Lemma Forall2_impl_elem {X Y : Type} (P Q : X -> Y -> Prop)
    (l : list X) (k : list Y) :
  Forall2 P l k ->
  (forall x y, P x y -> y ∈ k -> Q x y) ->
  Forall2 Q l k.
Proof.
  induction 1 as [|x y l k Hxy _ IH]; intros Himp; constructor.
  - apply Himp; [exact Hxy|apply list_elem_of_here].
  - apply IH. intros x' y' Hp Hin. apply Himp; [exact Hp|].
    now apply list_elem_of_further.
Qed.

Lemma map_finite_results (f : Float.float -> Float.float)
    (B : R -> R -> Prop) (ps us : list R) :
  Forall2 (fun p u => exists q, f (Float.Fin u) = Float.Fin q /\ B q p) ps us ->
  exists qs, map f (map Float.Fin us) = map Float.Fin qs /\ Forall2 B qs ps.
Proof.
  induction 1 as [|p u ps us (q & Hq & Hb) _ (qs & Hqs & Hall)].
  - exists []. split; [reflexivity|constructor].
  - exists (q :: qs). split; [simpl; now rewrite Hq, Hqs|].
    now constructor.
Qed.

Section RescaleBound.
Variable L : Float.lib.
Variables eps eps_sum A T : R.

Local Abbreviation lo_u := ((1 - eps) / Tensor.drift eps A)%R.
Local Abbreviation hi_u := ((1 + eps) * Tensor.drift eps A)%R.

Lemma unscaled_bounds (out : list R) :
  (0 <= eps < 1)%R -> (T <> 0)%R ->
  Forall (fun p =>
    (Rabs (ln p / T) <= A)%R
    /\ Float.near eps (Float.tf_math_log L p) (ln p)
    /\ (forall l, Float.tf_math_log L p = Float.Fin l ->
          Float.near eps (Float.tf_truediv L (Float.Fin l) T) (l / T))
    /\ (forall l d, Float.tf_math_log L p = Float.Fin l ->
          Float.tf_truediv L (Float.Fin l) T = Float.Fin d ->
          Float.near eps (Float.tf_exp L (Float.Fin d)) (exp d))) out ->
  exists us,
    Tensor.unscaled L out T = map Float.Fin us
    /\ Forall2 (fun p u =>
                  (lo_u * Rpower p (1 / T) <= u <= hi_u * Rpower p (1 / T))%R)
               out us.
Proof.
  intros Heps HT. induction 1 as [|p out (HA & Hlog & Hdiv & Hexp) _ IH].
  - exists []. split; [reflexivity|constructor].
  - destruct IH as (us & Hus & Hall).
    destruct Hlog as (l & Hl & Hle).
    destruct (Hdiv l Hl) as (d & Hd & Hde).
    destruct (Hexp l d Hl Hd) as (u & Hu & Hue).
    exists (u :: us). split.
    + simpl. rewrite Hus, Hl, Hd, Hu. reflexivity.
    + constructor; [|exact Hall].
      now apply (unscaled_entry_bound eps A p T l d u).
Qed.

(** The error analysis of [rescale]: when every operation is accurate at
    the operands it meets, every entry of the result is a finite float
    between [lower] and [upper] times the normalized power. *)
Lemma rescale_error_bound (out : list R) :
  (0 <= eps < 1)%R -> (0 <= eps_sum < 1)%R -> (T <> 0)%R ->
  Forall (fun p => (Rabs (ln p / T) <= A)%R) out ->
  Tensor.accurate L eps eps_sum out T ->
  exists probs,
    Tensor.rescale L out T = map Float.Fin probs
    /\ Forall2 (fun q i =>
                  (Tensor.lower eps eps_sum A * i <= q
                   <= Tensor.upper eps eps_sum A * i)%R)
               probs (Tensor.normalized_powers out T).
Proof.
  intros Heps Hsum HT HA (Hlog & Hdiv & Hexp & Hnp & Hquot).
  destruct (unscaled_bounds out Heps HT) as (us & Hus & Hall).
  { rewrite Forall_forall in HA. apply Forall_forall. intros p Hp.
    split; [now apply HA|]. split; [now apply Hlog|].
    split; [intros l; now apply Hdiv|]. intros l d; now apply Hexp. }
  unfold Tensor.rescale. cbv zeta. rewrite Hus.
  destruct out as [|p0 out0] eqn:Hout.
  { inversion Hall; subst. exists []. split; [reflexivity|constructor]. }
  rewrite <- Hout in *.
  assert (Hne : out <> []) by (rewrite Hout; discriminate).
  clear Hout p0 out0.
  pose proof (np_sum_powers_positive out T Hne) as HS.
  pose proof (np_sum_between (fun p => Rpower p (1 / T)) lo_u hi_u out us Hall)
    as Hsu.
  fold (Tensor.powers out T) in Hsu.
  set (S := Tensor.np_sum (Tensor.powers out T)) in *.
  pose proof (drift_pos eps A) as Hg.
  assert (Hlo_u : (0 < lo_u)%R) by (apply Rdiv_lt_0_compat; lra).
  assert (Hhi_u : (0 < hi_u)%R) by (apply Rmult_lt_0_compat; lra).
  assert (HSu : (0 < Tensor.np_sum us)%R).
  { apply Rlt_le_trans with (lo_u * S)%R; [|lra].
    now apply Rmult_lt_0_compat. }
  destruct (near_positive eps_sum _ _ (Rlt_le _ _ HSu) (Hnp us Hus))
    as (s & Hs & Hsb).
  rewrite Hs.
  assert (Hs_lo : ((1 - eps_sum) * (lo_u * S) <= s)%R).
  { apply Rle_trans with ((1 - eps_sum) * Tensor.np_sum us)%R; [|lra].
    apply Rmult_le_compat_l; lra. }
  assert (Hs_hi : (s <= (1 + eps_sum) * (hi_u * S))%R).
  { apply Rle_trans with ((1 + eps_sum) * Tensor.np_sum us)%R; [lra|].
    apply Rmult_le_compat_l; lra. }
  assert (Hs_pos : (0 < s)%R).
  { apply Rlt_le_trans with ((1 - eps_sum) * (lo_u * S))%R; [|exact Hs_lo].
    apply Rmult_lt_0_compat; [lra|]. now apply Rmult_lt_0_compat. }
  assert (Hentries : Forall2 (fun p u =>
            exists q, Float.np_true_divide L (Float.Fin u) (Float.Fin s)
                      = Float.Fin q
              /\ (Tensor.lower eps eps_sum A * (Rpower p (1 / T) / S) <= q
                  <= Tensor.upper eps eps_sum A * (Rpower p (1 / T) / S))%R)
            out us).
  { apply (Forall2_impl_elem _ _ _ _ Hall). intros p u Hpu Hin.
    assert (Hpw : (0 < Rpower p (1 / T))%R) by apply exp_pos.
    destruct (quotient_between (Rpower p (1 / T)) u s lo_u hi_u
                ((1 - eps_sum) * (lo_u * S)) ((1 + eps_sum) * (hi_u * S))
                Hpw Hlo_u Hpu) as [Hq1 Hq2]; [|lra|].
    { apply Rmult_lt_0_compat; [lra|]. now apply Rmult_lt_0_compat. }
    assert (Hus_pos : (0 <= u / s)%R).
    { apply Rle_trans with (lo_u * Rpower p (1 / T)
                            / ((1 + eps_sum) * (hi_u * S)))%R; [|exact Hq1].
      left. apply Rdiv_lt_0_compat; [now apply Rmult_lt_0_compat|].
      apply Rmult_lt_0_compat; [lra|]. now apply Rmult_lt_0_compat. }
    destruct (near_positive eps _ _ Hus_pos (Hquot us s u Hus Hs Hin))
      as (q & Hq & Hqb).
    exists q. split; [exact Hq|]. split.
    - apply Rle_trans with ((1 - eps) * (u / s))%R; [|lra].
      apply Rle_trans
        with ((1 - eps) * (lo_u * Rpower p (1 / T)
                           / ((1 + eps_sum) * (hi_u * S))))%R.
      + right. unfold Tensor.lower. field. lra.
      + apply Rmult_le_compat_l; lra.
    - apply Rle_trans with ((1 + eps) * (u / s))%R; [lra|].
      apply Rle_trans
        with ((1 + eps) * (hi_u * Rpower p (1 / T)
                           / ((1 - eps_sum) * (lo_u * S))))%R.
      + apply Rmult_le_compat_l; lra.
      + right. unfold Tensor.upper. field. lra. }
  destruct (map_finite_results
              (fun q => Float.np_true_divide L q (Float.Fin s))
              (fun q p => (Tensor.lower eps eps_sum A * (Rpower p (1 / T) / S)
                           <= q
                           <= Tensor.upper eps eps_sum A
                              * (Rpower p (1 / T) / S))%R)
              out us Hentries) as (qs & Hqs & Hbounds).
  exists qs. split; [exact Hqs|].
  unfold Tensor.normalized_powers. fold S.
  apply Forall2_fmap_r. exact Hbounds.
Qed.

End RescaleBound.

Lemma bounds_positive (eps eps_sum A : R) :
  (0 <= eps < 1)%R -> (0 <= eps_sum < 1)%R ->
  (0 < Tensor.lower eps eps_sum A)%R /\ (0 < Tensor.upper eps eps_sum A)%R.
Proof.
  intros He Hs. pose proof (drift_pos eps A) as Hg.
  unfold Tensor.lower, Tensor.upper.
  assert (Hgg : (0 < Tensor.drift eps A * Tensor.drift eps A)%R)
    by now apply Rmult_lt_0_compat.
  split; apply Rdiv_lt_0_compat;
    repeat (apply Rmult_lt_0_compat; try lra).
Qed.

(** Without rounding the two factors are 1. *)
Lemma bounds_exact (A : R) :
  Tensor.lower 0 0 A = 1%R /\ Tensor.upper 0 0 A = 1%R.
Proof.
  unfold Tensor.lower, Tensor.upper, Tensor.drift.
  replace (A * (2 * 0 + 0 * 0))%R with 0%R by ring. rewrite exp_0.
  split; field.
Qed.

Lemma normalized_powers_positive (out : list R) (T : R) :
  Forall (fun i => (0 < i)%R) (Tensor.normalized_powers out T).
Proof.
  destruct out as [|p out]; [constructor|].
  pose proof (np_sum_powers_positive (p :: out) T) as HS.
  unfold Tensor.normalized_powers.
  generalize dependent (Tensor.np_sum (Tensor.powers (p :: out) T)).
  intros S HS. apply Forall_map, Forall_forall. intros x _. simpl.
  apply Rdiv_lt_0_compat; [apply exp_pos|]. now apply HS.
Qed.

Lemma normalized_powers_sum (out : list R) (T : R) :
  out <> [] -> Tensor.np_sum (Tensor.normalized_powers out T) = 1%R.
Proof.
  intros Hne. pose proof (np_sum_powers_positive out T Hne) as HS.
  unfold Tensor.normalized_powers.
  assert (H : forall s : R,
            Tensor.np_sum (map (fun p => (Rpower p (1 / T) / s)%R) out)
            = (Tensor.np_sum (Tensor.powers out T) / s)%R).
  { clear. intros s. unfold Tensor.np_sum, Tensor.powers.
    induction out as [|p l IH]; simpl; [unfold Rdiv; ring|].
    rewrite IH. unfold Rdiv. ring. }
  rewrite H. field. lra.
Qed.

Lemma normalized_powers_one (p : list R) :
  Forall (fun x => (0 < x)%R) p ->
  Tensor.normalized_powers p 1 = map (fun x => (x / Tensor.np_sum p)%R) p.
Proof.
  intros Hpos.
  assert (Hpow : Tensor.powers p 1 = p).
  { unfold Tensor.powers. induction Hpos as [|x l Hx _ IH]; simpl;
      [reflexivity|].
    rewrite IH. f_equal. replace (1 / 1)%R with 1%R by field.
    now apply Rpower_1. }
  unfold Tensor.normalized_powers. rewrite Hpow.
  apply map_ext_in. intros x Hx. rewrite Forall_forall in Hpos.
  replace (1 / 1)%R with 1%R by field.
  rewrite Rpower_1; [reflexivity|]. apply Hpos. now apply list_elem_of_In.
Qed.

Lemma Forall2_squeezed (qs ps : list R) :
  Forall2 (fun q i => (1 * i <= q <= 1 * i)%R) qs ps -> qs = ps.
Proof.
  induction 1 as [|q i qs ps Hq _ IH]; [reflexivity|].
  f_equal; [lra|exact IH].
Qed.

(** C1, as the code has it: [probs] is computed in floating point, so it
    is the vector of the normalized powers [p_i^(1/T) / sum_j p_j^(1/T)]
    up to rounding. For a positive vector [out] and [T > 0], when every
    library operation is accurate to the relative error [eps] ([eps_sum]
    for the sum) at the operands it meets, every entry of [probs] is a
    positive finite float between [lower] and [upper] times the normalized
    power; without rounding it is the normalized power itself. *)
Theorem rescale_is_normalized_power (L : Float.lib) (eps eps_sum A : R)
    (out : list R) (T : R) :
  Forall (fun p => (0 < p)%R) out -> (0 < T)%R ->
  (0 <= eps < 1)%R -> (0 <= eps_sum < 1)%R ->
  Forall (fun p => (Rabs (ln p / T) <= A)%R) out ->
  Tensor.accurate L eps eps_sum out T ->
  exists probs,
    Tensor.rescale L out T = map Float.Fin probs
    /\ length probs = length out
    /\ Forall2 (fun q i =>
                  (Tensor.lower eps eps_sum A * i <= q
                   <= Tensor.upper eps eps_sum A * i)%R)
               probs (Tensor.normalized_powers out T)
    /\ Forall (fun q => (0 < q)%R) probs
    /\ (eps = 0%R -> eps_sum = 0%R -> probs = Tensor.normalized_powers out T).
Proof.
  intros Hpos HT Heps Hsum HA Hacc.
  assert (HT0 : (T <> 0)%R) by lra.
  destruct (rescale_error_bound L eps eps_sum A T out Heps Hsum HT0 HA Hacc)
    as (probs & Hres & Hall).
  destruct (bounds_positive eps eps_sum A Heps Hsum) as [Hlo Hhi].
  exists probs. split; [exact Hres|].
  split; [|split; [exact Hall|split]].
  - apply Forall2_length in Hall. rewrite Hall.
    unfold Tensor.normalized_powers. apply length_map.
  - apply (Forall2_Forall_l _ _ _ _ Hall).
    eapply Forall_impl; [apply normalized_powers_positive|].
    intros i Hi q Hq. simpl in Hq.
    apply Rlt_le_trans with (Tensor.lower eps eps_sum A * i)%R; [|lra].
    now apply Rmult_lt_0_compat.
  - intros -> ->. destruct (bounds_exact A) as [Hl Hu].
    rewrite Hl, Hu in Hall. now apply Forall2_squeezed.
Qed.

(** C7, as the code has it: at temperature 1 the result is [p] divided by
    its sum, and [p] itself when the entries sum to 1, up to rounding: for a
    positive vector [p], when every library operation is accurate to [eps]
    ([eps_sum] for the sum) at the operands it meets, every entry of the
    result is between [lower] and [upper] times that value; without
    rounding it is that value. *)
Theorem rescale_temperature_one (L : Float.lib) (eps eps_sum A : R)
    (p : list R) :
  Forall (fun x => (0 < x)%R) p ->
  (0 <= eps < 1)%R -> (0 <= eps_sum < 1)%R ->
  Forall (fun x => (Rabs (ln x) <= A)%R) p ->
  Tensor.accurate L eps eps_sum p 1 ->
  exists probs,
    Tensor.rescale L p 1 = map Float.Fin probs
    /\ Forall2 (fun q x =>
                  (Tensor.lower eps eps_sum A * (x / Tensor.np_sum p) <= q
                   <= Tensor.upper eps eps_sum A * (x / Tensor.np_sum p))%R)
               probs p
    /\ (Tensor.np_sum p = 1%R ->
          Forall2 (fun q x =>
                     (Tensor.lower eps eps_sum A * x <= q
                      <= Tensor.upper eps eps_sum A * x)%R) probs p)
    /\ (eps = 0%R -> eps_sum = 0%R ->
          probs = map (fun x => (x / Tensor.np_sum p)%R) p
          /\ (Tensor.np_sum p = 1%R -> probs = p)).
Proof.
  intros Hpos Heps Hsum HA Hacc.
  assert (HA1 : Forall (fun x => (Rabs (ln x / 1) <= A)%R) p).
  { eapply Forall_impl; [exact HA|]. intros x Hx. simpl.
    now replace (ln x / 1)%R with (ln x) by field. }
  destruct (rescale_error_bound L eps eps_sum A 1 p Heps Hsum R1_neq_R0
              HA1 Hacc) as (probs & Hres & Hall).
  rewrite (normalized_powers_one p Hpos) in Hall.
  apply Forall2_fmap_r in Hall.
  exists probs. split; [exact Hres|]. split; [exact Hall|]. split.
  - intros Hone. eapply Forall2_impl; [exact Hall|].
    intros q x Hq. simpl in Hq. rewrite Hone in Hq.
    now replace (x / 1)%R with x in Hq by field.
  - intros -> ->. destruct (bounds_exact A) as [Hl Hu].
    rewrite Hl, Hu in Hall.
    assert (E : probs = map (fun x => (x / Tensor.np_sum p)%R) p).
    { apply Forall2_squeezed. now apply Forall2_fmap_r. }
    split; [exact E|].
    intros Hone. rewrite E, Hone.
    rewrite <- (List.map_id p) at 2. apply List.map_ext. intros x. field.
Qed.

(** ** The rescaling on the stand-in libraries *)

Lemma float_sum_finite (us : list R) :
  Demo.float_sum (map Float.Fin us) = Float.Fin (Tensor.np_sum us).
Proof.
  unfold Demo.float_sum, Tensor.np_sum.
  induction us as [|u us IH]; simpl; [reflexivity|]. now rewrite IH.
Qed.

Lemma near_exact (eps r : R) : (0 <= eps)%R -> Float.near eps (Float.Fin r) r.
Proof.
  intros He. exists r. split; [reflexivity|].
  replace (r - r)%R with 0%R by ring. rewrite Rabs_R0.
  apply Rmult_le_pos; [exact He|apply Rabs_pos].
Qed.

(** The ideal library is accurate with any error bounds. *)
Lemma real_lib_accurate (eps eps_sum : R) (out : list R) (T : R) :
  (0 <= eps)%R -> (0 <= eps_sum)%R ->
  Tensor.accurate Demo.real_lib eps eps_sum out T.
Proof.
  intros He Hs. unfold Tensor.accurate. simpl.
  split; [intros p _; now apply near_exact|].
  split; [intros p l _ _; now apply near_exact|].
  split; [intros p l d _ _ _; now apply near_exact|].
  split.
  - intros us _. rewrite float_sum_finite. now apply near_exact.
  - intros us s u _ _ _. now apply near_exact.
Qed.

Lemma ln_lower_bound (x : R) : (0 < x)%R -> (1 - 1 / x <= ln x)%R.
Proof.
  intros Hx. destruct (Rle_or_lt (1 - 1 / x) (ln x)) as [H|H]; [exact H|].
  exfalso. apply exp_increasing in H. rewrite (exp_ln x Hx) in H.
  assert (Hinv : (0 < / x)%R) by now apply Rinv_0_lt_compat.
  assert (Hy : (1 / x <= exp (1 / x - 1))%R).
  { destruct (Req_dec (1 / x - 1) 0) as [E|E].
    - rewrite E, exp_0. lra.
    - pose proof (exp_ineq1 (1 / x - 1) E). lra. }
  replace (1 - 1 / x)%R with (- (1 / x - 1))%R in H by ring.
  rewrite exp_Ropp in H.
  assert (Hp : (0 < exp (1 / x - 1))%R) by apply exp_pos.
  assert (Hle : (/ exp (1 / x - 1) <= / (1 / x))%R).
  { apply Rinv_le_contravar; [unfold Rdiv; lra|exact Hy]. }
  replace (/ (1 / x))%R with x in Hle by (field; lra). lra.
Qed.

Lemma ln_of_fraction (x : R) :
  (0 < x <= 1)%R -> (Rabs (ln x) <= 1 / x - 1)%R.
Proof.
  intros Hx. pose proof (ln_lower_bound x (proj1 Hx)) as Hlo.
  assert (Hhi : (ln x <= 0)%R).
  { destruct (proj2 Hx) as [Hlt| ->]; [|rewrite ln_1; lra].
    left. rewrite <- ln_1. apply ln_increasing; lra. }
  apply Rabs_le. lra.
Qed.

Lemma rescale_is_normalized_power_witness :
  exists probs,
    Tensor.rescale Demo.real_lib [(1/4)%R; (3/4)%R] 2 = map Float.Fin probs
    /\ length probs = 2%nat
    /\ Forall2 (fun q i =>
                  (Tensor.lower (1/1000000) (1/1000000) 2 * i <= q
                   <= Tensor.upper (1/1000000) (1/1000000) 2 * i)%R)
               probs (Tensor.normalized_powers [(1/4)%R; (3/4)%R] 2)
    /\ Forall (fun q => (0 < q)%R) probs.
Proof.
  destruct (rescale_is_normalized_power Demo.real_lib
              (1/1000000) (1/1000000) 2 [(1/4)%R; (3/4)%R] 2)
    as (probs & H1 & H2 & H3 & H4 & _).
  - repeat constructor; lra.
  - lra.
  - lra.
  - lra.
  - apply Forall_cons_2; [|apply Forall_cons_2; [|apply Forall_nil_2]].
    + pose proof (ln_of_fraction (1/4)) as H.
      unfold Rdiv at 1. rewrite Rabs_mult, (Rabs_pos_eq (/ 2)) by lra.
      assert (Rabs (ln (1/4)) <= 1 / (1/4) - 1)%R by (apply H; lra).
      replace (1 / (1/4) - 1)%R with 3%R in * by field. lra.
    + pose proof (ln_of_fraction (3/4)) as H.
      unfold Rdiv at 1. rewrite Rabs_mult, (Rabs_pos_eq (/ 2)) by lra.
      assert (Rabs (ln (3/4)) <= 1 / (3/4) - 1)%R by (apply H; lra).
      replace (1 / (3/4) - 1)%R with (1/3)%R in * by field. lra.
  - apply real_lib_accurate; lra.
  - exists probs. auto.
Defined.

Lemma rescale_temperature_one_witness :
  exists probs,
    Tensor.rescale Demo.real_lib [(1/4)%R; (3/4)%R] 1 = map Float.Fin probs
    /\ Forall2 (fun q x =>
                  (Tensor.lower (1/1000000) (1/1000000) 3 * x <= q
                   <= Tensor.upper (1/1000000) (1/1000000) 3 * x)%R)
               probs [(1/4)%R; (3/4)%R].
Proof.
  destruct (rescale_temperature_one Demo.real_lib
              (1/1000000) (1/1000000) 3 [(1/4)%R; (3/4)%R])
    as (probs & H1 & _ & H2 & _).
  - repeat constructor; lra.
  - lra.
  - lra.
  - apply Forall_cons_2; [|apply Forall_cons_2; [|apply Forall_nil_2]].
    + pose proof (ln_of_fraction (1/4)) as H.
      assert (Rabs (ln (1/4)) <= 1 / (1/4) - 1)%R by (apply H; lra).
      replace (1 / (1/4) - 1)%R with 3%R in * by field. lra.
    + pose proof (ln_of_fraction (3/4)) as H.
      assert (Rabs (ln (3/4)) <= 1 / (3/4) - 1)%R by (apply H; lra).
      replace (1 / (3/4) - 1)%R with (1/3)%R in * by field. lra.
  - apply real_lib_accurate; lra.
  - exists probs. split; [exact H1|]. apply H2.
    unfold Tensor.np_sum. simpl. lra.
Defined.

(** Settles the branches of the stand-in library on rational operands. *)
Ltac decide_reals :=
  unfold Demo.float32_log, Demo.float32_exp, Demo.float_divide,
    Demo.table_get, Demo.log_table, Demo.exp_table,
    Demo.f32_0_1, Demo.f32_0_9, Demo.f32_0_3, Demo.f32_0_7;
  repeat match goal with
         | |- context [Req_EM_T ?a ?b] =>
             destruct (Req_EM_T a b); [try (exfalso; lra)|try (exfalso; lra)]
         | |- context [Rle_dec ?a ?b] =>
             destruct (Rle_dec a b); [try (exfalso; lra)|try (exfalso; lra)]
         | |- context [Rlt_dec ?a ?b] =>
             destruct (Rlt_dec a b); [try (exfalso; lra)|try (exfalso; lra)]
         end.

Lemma float32_log_0_1 :
  Demo.float32_log Demo.f32_0_1 = Float.Fin (- (4828871 / 2097152)).
Proof. decide_reals. reflexivity. Qed.

Lemma float32_log_0_9 :
  Demo.float32_log Demo.f32_0_9 = Float.Fin (- (14141253 / 134217728)).
Proof. decide_reals. reflexivity. Qed.

Lemma float32_log_0_3 :
  Demo.float32_log Demo.f32_0_3 = Float.Fin (- (1262457 / 1048576)).
Proof. decide_reals. reflexivity. Qed.

Lemma float32_log_0_7 :
  Demo.float32_log Demo.f32_0_7 = Float.Fin (- (5984013 / 16777216)).
Proof. decide_reals. reflexivity. Qed.

Lemma float32_exp_underflow (d : R) :
  (d <= -104)%R -> Demo.float32_exp (Float.Fin d) = Float.Fin 0.
Proof. intros Hd. unfold Demo.float32_exp. now destruct (Rle_dec d (-104)). Qed.

Lemma float32_exp_log_0_1 (d : R) :
  d = (- (4828871 / 2097152))%R ->
  Demo.float32_exp (Float.Fin d) = Float.Fin (3355443 / 33554432).
Proof. intros ->. decide_reals. reflexivity. Qed.

Lemma float32_exp_log_0_9 (d : R) :
  d = (- (14141253 / 134217728))%R ->
  Demo.float32_exp (Float.Fin d) = Float.Fin Demo.f32_0_9.
Proof. intros ->. decide_reals. reflexivity. Qed.

Lemma float_divide_finite (a b : R) :
  (b <> 0)%R ->
  Demo.float_divide (Float.Fin a) (Float.Fin b) = Float.Fin (a / b).
Proof. intros Hb. unfold Demo.float_divide. now destruct (Req_EM_T b 0). Qed.

Lemma float_divide_zero_by_zero (a b : R) :
  a = 0%R -> b = 0%R ->
  Demo.float_divide (Float.Fin a) (Float.Fin b) = Float.NaN.
Proof.
  intros -> ->. unfold Demo.float_divide.
  destruct (Req_EM_T 0 0); [reflexivity|done].
Qed.

(** The stand-in at temperature 1 on [0.1, 0.9], and at temperature 0.001
    on [0.3, 0.7]. *)
Lemma float32_rescale_at_one :
  Tensor.rescale Demo.float32_lib [Demo.f32_0_1; Demo.f32_0_9] 1
  = [Float.Fin (3355443 / 33554432
                / (3355443 / 33554432 + (7549747 / 8388608 + 0)));
     Float.Fin (7549747 / 8388608
                / (3355443 / 33554432 + (7549747 / 8388608 + 0)))].
Proof.
  unfold Tensor.rescale, Tensor.unscaled, Tensor.astype_float64.
  cbn [map Demo.float32_lib Float.tf_math_log Float.tf_truediv
       Float.tf_exp Float.np_sum Float.np_true_divide].
  rewrite float32_log_0_1, float32_log_0_9.
  rewrite !float_divide_finite by lra.
  rewrite float32_exp_log_0_1 by field.
  rewrite float32_exp_log_0_9 by field.
  cbn [Demo.float_sum foldr Demo.float_add]. unfold Demo.f32_0_9.
  now rewrite !float_divide_finite by lra.
Qed.

Lemma float32_rescale_cold :
  Tensor.rescale Demo.float32_lib [Demo.f32_0_3; Demo.f32_0_7] (1 / 1000)
  = [Float.NaN; Float.NaN].
Proof.
  unfold Tensor.rescale, Tensor.unscaled, Tensor.astype_float64.
  cbn [map Demo.float32_lib Float.tf_math_log Float.tf_truediv
       Float.tf_exp Float.np_sum Float.np_true_divide].
  rewrite float32_log_0_3, float32_log_0_7.
  rewrite !float_divide_finite by lra.
  rewrite !float32_exp_underflow by lra.
  cbn [Demo.float_sum foldr Demo.float_add].
  now rewrite !float_divide_zero_by_zero by lra.
Qed.

(** C1, as stated, fails, in two ways. Rounding: with the positive output
    [0.1, 0.9] and the temperature 1, [probs] is about
    [0.09999999702, 0.90000000298], not the vector of the normalized
    powers. Underflow: with the positive output [0.3, 0.7] and the
    temperature 0.001, both exponentials underflow to zero in [float32],
    their sum is zero, and [probs] is [NaN, NaN]. *)
Lemma rescale_rounds_and_underflows :
  (Forall (fun p => (0 < p)%R) [Demo.f32_0_1; Demo.f32_0_9]
   /\ (0 < 1)%R
   /\ Tensor.rescale Demo.float32_lib [Demo.f32_0_1; Demo.f32_0_9] 1
      <> map Float.Fin
           (Tensor.normalized_powers [Demo.f32_0_1; Demo.f32_0_9] 1))
  /\ (Forall (fun p => (0 < p)%R) [Demo.f32_0_3; Demo.f32_0_7]
      /\ (0 < 1 / 1000)%R
      /\ Tensor.rescale Demo.float32_lib [Demo.f32_0_3; Demo.f32_0_7]
           (1 / 1000)
         = [Float.NaN; Float.NaN]
      /\ Tensor.rescale Demo.float32_lib [Demo.f32_0_3; Demo.f32_0_7]
           (1 / 1000)
         <> map Float.Fin
              (Tensor.normalized_powers [Demo.f32_0_3; Demo.f32_0_7]
                 (1 / 1000))).
Proof.
  split.
  - assert (Hpos : Forall (fun p => (0 < p)%R) [Demo.f32_0_1; Demo.f32_0_9])
      by (unfold Demo.f32_0_1, Demo.f32_0_9; repeat constructor; lra).
    split; [exact Hpos|]. split; [lra|].
    rewrite float32_rescale_at_one, (normalized_powers_one _ Hpos).
    unfold Tensor.np_sum, Demo.f32_0_1, Demo.f32_0_9. simpl.
    intros [= H _]. lra.
  - split; [unfold Demo.f32_0_3, Demo.f32_0_7; repeat constructor; lra|].
    split; [lra|]. split; [exact float32_rescale_cold|].
    rewrite float32_rescale_cold. discriminate.
Qed.

(** C7, as stated, fails: in [float32] the exponential of the logarithm of
    0.1 is the float just below 0.1, so at temperature 1 the vector
    [0.1, 0.9] comes back as about [0.09999999702, 0.90000000298]: neither
    the vector itself nor the vector divided by its sum. *)
Lemma rescale_temperature_one_rounds :
  Forall (fun x => (0 < x)%R) [Demo.f32_0_1; Demo.f32_0_9]
  /\ exists q1 q2,
       Tensor.rescale Demo.float32_lib [Demo.f32_0_1; Demo.f32_0_9] 1
       = [Float.Fin q1; Float.Fin q2]
       /\ (99999997 / 1000000000 < q1 < 99999998 / 1000000000)%R
       /\ (900000002 / 1000000000 < q2 < 900000003 / 1000000000)%R
       /\ q1 <> Demo.f32_0_1 /\ q2 <> Demo.f32_0_9
       /\ q1 <> (Demo.f32_0_1
                 / Tensor.np_sum [Demo.f32_0_1; Demo.f32_0_9])%R
       /\ q2 <> (Demo.f32_0_9
                 / Tensor.np_sum [Demo.f32_0_1; Demo.f32_0_9])%R.
Proof.
  split; [unfold Demo.f32_0_1, Demo.f32_0_9; repeat constructor; lra|].
  eexists _, _. split; [exact float32_rescale_at_one|].
  unfold Tensor.np_sum, Demo.f32_0_1, Demo.f32_0_9. simpl.
  repeat split; lra.
Qed.
Lemma zip_with_map_same {A B C D} (f : B -> C -> D) (g : A -> B) (h : A -> C)
    (l : list A) :
  zip_with f (map g l) (map h l) = map (fun x => f (g x) (h x)) l.
Proof. induction l as [|x l IH]; simpl; [reflexivity|now rewrite IH]. Qed.

Lemma reduce_sum_one_hot_counts (ids : list Z) (depth : nat) :
  Bow.reduce_sum_axis0 depth (Bow.one_hot ids depth) = Bow.counts ids depth.
Proof.
  unfold Bow.reduce_sum_axis0, Bow.one_hot, Bow.counts.
  induction ids as [|i ids IH]; simpl.
  - generalize 0%nat. induction depth as [|d IHd]; intros s; simpl;
      [reflexivity|]. f_equal. apply IHd.
  - rewrite IH. unfold Bow.one_hot_row. rewrite zip_with_map_same.
    apply List.map_ext. intros j. unfold Bow.occurrences. simpl.
    destruct (Z.eq_dec i (Z.of_nat j)) as [->|Hne].
    + rewrite Z.eqb_refl, S_INR. lra.
    + apply Z.eqb_neq in Hne. rewrite Hne. lra.
Qed.

Lemma occurrences_in_range_only (ids : list Z) (depth j : nat) :
  (j < depth)%nat ->
  Bow.occurrences (filter (fun i => Is_true (Bow.in_range depth i)) ids) j =
  Bow.occurrences ids j.
Proof.
  intros Hj. unfold Bow.occurrences.
  induction ids as [|i ids IH]; [reflexivity|].
  rewrite filter_cons. destruct (decide (Is_true (Bow.in_range depth i))) as [Hi|Hi].
  - simpl. destruct (Z.eq_dec i (Z.of_nat j)); now rewrite IH.
  - simpl. destruct (Z.eq_dec i (Z.of_nat j)) as [->|Hne]; [|exact IH].
    exfalso. apply Hi. unfold Bow.in_range.
    apply Is_true_true. apply andb_true_iff. split.
    + apply Z.leb_le. lia.
    + apply Z.ltb_lt. lia.
Qed.

Lemma counts_in_range_only (ids : list Z) (depth : nat) :
  Bow.counts (filter (fun i => Is_true (Bow.in_range depth i)) ids) depth =
  Bow.counts ids depth.
Proof.
  unfold Bow.counts. apply map_ext_in. intros j Hj.
  apply in_seq in Hj. f_equal. apply occurrences_in_range_only. lia.
Qed.

(** C5: [to_bow] returns the vector of occurrence counts: it has
    [vocab_size] components, component [j] is the number of occurrences of
    the id [j] in the vectorized text, and ids outside [0, vocab_size) change
    no component; [BOWLayer.call] does the same for every row of a batch. *)
Theorem bow_counts_occurrences
    (vectorizer : string -> list Z) (vocab_size : nat)
    (text : string) (inp : list (list Z)) :
  let ids := vectorizer text in
  let bow := Bow.to_bow vectorizer vocab_size text in
  let out := Bow.call (Bow.mkBOWLayer vocab_size) inp in
  (length bow = vocab_size
   /\ (forall j : nat, (j < vocab_size)%nat ->
         bow !! j = Some (INR (Bow.occurrences ids j)))
   /\ bow = Bow.counts
              (filter (fun i => Is_true (Bow.in_range vocab_size i)) ids)
              vocab_size)
  /\ (length out = length inp
      /\ forall (b : nat) (row : list Z), inp !! b = Some row ->
           exists v, out !! b = Some v
             /\ length v = vocab_size
             /\ (forall j : nat, (j < vocab_size)%nat ->
                   v !! j = Some (INR (Bow.occurrences row j)))
             /\ v = Bow.counts
                      (filter (fun i => Is_true (Bow.in_range vocab_size i)) row)
                      vocab_size).
Proof.
  assert (Hlen : forall ids, length (Bow.counts ids vocab_size) = vocab_size).
  { intros ids. unfold Bow.counts. now rewrite List.length_map, length_seq. }
  assert (Hnth : forall ids (j : nat), (j < vocab_size)%nat ->
            Bow.counts ids vocab_size !! j = Some (INR (Bow.occurrences ids j))).
  { intros ids j Hj. unfold Bow.counts.
    change (map ?f ?l) with (f <$> l).
    rewrite list_lookup_fmap, lookup_seq_lt by exact Hj. reflexivity. }
  intros ids bow out. split.
  - subst bow. unfold Bow.to_bow. fold ids.
    rewrite reduce_sum_one_hot_counts.
    split; [apply Hlen|]. split; [apply Hnth|].
    now rewrite counts_in_range_only.
  - subst out. unfold Bow.call, Bow.reduce_sum_axis1, Bow.one_hot_batch.
    simpl. split; [now rewrite !List.length_map|].
    intros b row Hrow. exists (Bow.counts row vocab_size).
    split.
    + change (map ?f ?l) with (f <$> l).
      rewrite !list_lookup_fmap, Hrow. simpl.
      now rewrite reduce_sum_one_hot_counts.
    + split; [apply Hlen|]. split; [apply Hnth|].
      now rewrite counts_in_range_only.
Qed.

(** Two occurrences of id 1, one of id 3, and an id beyond the vocabulary. *)
Example to_bow_example :
  Bow.to_bow (fun _ => [1; 3; 1; 7]) 4 "hot dog hot day" =
  [0%R; 2%R; 0%R; 1%R].
Proof.
  unfold Bow.to_bow, Bow.reduce_sum_axis0, Bow.one_hot, Bow.one_hot_row.
  simpl. repeat (f_equal; try lra).
Qed.

(** ** The store *)

Lemma deref_append_same (h : Gen.heap) (l : Gen.loc) (x : Z) :
  (l < length h)%nat ->
  Gen.deref (Gen.append h l x) l = Gen.deref h l ++ [x].
Proof.
  intros Hl. unfold Gen.deref, Gen.append. rewrite list_lookup_alter_eq.
  destruct (lookup_lt_is_Some_2 h l Hl) as [v Hv]. now rewrite Hv.
Qed.

Lemma deref_append_other (h : Gen.heap) (l l' : Gen.loc) (x : Z) :
  l <> l' -> Gen.deref (Gen.append h l x) l' = Gen.deref h l'.
Proof.
  intros Hne. unfold Gen.deref, Gen.append.
  now rewrite list_lookup_alter_ne.
Qed.

Lemma deref_new_list (h : Gen.heap) (v : list Z) :
  Gen.deref (h ++ [v]) (length h) = v.
Proof. unfold Gen.deref. now rewrite list_lookup_middle. Qed.

Lemma deref_old_list (h : Gen.heap) (v : list Z) (l : Gen.loc) :
  (l < length h)%nat -> Gen.deref (h ++ [v]) l = Gen.deref h l.
Proof. intros Hl. unfold Gen.deref. now rewrite lookup_app_l. Qed.

Lemma feed_nil (seed : list Z) : Gen.feed seed [] = seed.
Proof. unfold Gen.feed. simpl. now rewrite app_nil_r. Qed.

Lemma feed_snoc (seed gs : list Z) (nc : Z) :
  gs <> [] -> Gen.feed seed (gs ++ [nc]) = Gen.feed seed gs ++ [nc].
Proof.
  intros Hgs. unfold Gen.feed. destruct gs as [|g gs]; [done|].
  simpl. now rewrite <- !app_assoc.
Qed.

Lemma inv_initial (seed : list Z) :
  Gen.inv seed [] (Gen.Locals [seed] 0 0).
Proof.
  constructor; simpl; try lia.
  - unfold Gen.deref. simpl. now rewrite app_nil_r.
  - unfold Gen.deref. simpl. now rewrite feed_nil.
  - done.
Qed.

(** One pass through [chars.append(nc); inp = inp+[nc]]. *)
Lemma inv_step (seed gs : list Z) (l : Gen.locals) (nc : Z) :
  Gen.inv seed gs l ->
  let h1 := Gen.append (Gen.store l) (Gen.chars l) nc in
  Gen.inv seed (gs ++ [nc])
    (Gen.Locals (h1 ++ [Gen.deref h1 (Gen.inp l) ++ [nc]]) (length h1)
                (Gen.chars l)).
Proof.
  intros [Hc Hi Hcv Hiv Hal] h1.
  assert (Hlen : length h1 = length (Gen.store l))
    by (subst h1; unfold Gen.append; apply length_alter).
  assert (Hc1 : Gen.deref h1 (Gen.chars l) = seed ++ gs ++ [nc]).
  { subst h1. rewrite deref_append_same by exact Hc.
    now rewrite Hcv, <- app_assoc. }
  constructor; simpl.
  - rewrite length_app. simpl. lia.
  - rewrite length_app. simpl. lia.
  - rewrite deref_old_list by lia. exact Hc1.
  - rewrite deref_new_list.
    destruct gs as [|g gs'].
    + assert (Gen.inp l = Gen.chars l) as -> by now apply Hal.
      rewrite Hc1. unfold Gen.feed. simpl. now rewrite <- app_assoc.
    + assert (Hne : Gen.inp l <> Gen.chars l).
      { intros Heq. apply Hal in Heq. discriminate. }
      subst h1. rewrite deref_append_other by (intros E; apply Hne; done).
      rewrite Hiv. now rewrite feed_snoc.
  - split.
    + intros Hnil. destruct gs; discriminate.
    + intros Heq. lia.
Qed.

(** ** The loops make the calls the description lists *)

Section LoopFacts.
Variable rng : Type.
Variable np_random_multinomial :
  rng -> Z -> list Float.float -> Z -> result (list (list Z)) * rng.
Variable lib : Float.lib.
Variable word_index0 : Gen.dict.

Lemma generate_loop_shape (model : Gen.keras_model) (n : nat)
    (l : Gen.locals) (w : Gen.world rng) :
  Gen.generate_loop rng word_index0 model n l w =
  Gen.loop_with rng word_index0 (Gen.greedy_pick rng) model n l w.
Proof.
  revert l w. induction n as [|n IH]; intros l w; [reflexivity|].
  simpl. unfold Gen.bind.
  destruct (Gen.model_step rng word_index0 model _ w) as [[out|e] w1];
    [|reflexivity].
  destruct (Gen.greedy_pick rng out w1) as [[nc|e] w2]; [|reflexivity].
  destruct (Z.eqb nc (Gen.eos_token word_index0)); [reflexivity|].
  apply IH.
Qed.

Lemma generate_soft_loop_shape (model : Gen.keras_model) (T : R) (n : nat)
    (l : Gen.locals) (w : Gen.world rng) :
  Gen.generate_soft_loop rng np_random_multinomial lib word_index0 model T n
    l w =
  Gen.loop_with rng word_index0
    (fun out =>
       Gen.soft_pick rng np_random_multinomial (Tensor.rescale lib out T))
    model n l w.
Proof.
  revert l w. induction n as [|n IH]; intros l w; [reflexivity|].
  simpl. unfold Gen.bind.
  destruct (Gen.model_step rng word_index0 model _ w) as [[out|e] w1];
    [|reflexivity].
  destruct (Gen.soft_pick rng np_random_multinomial _ w1) as [[nc|e] w2];
    [|reflexivity].
  destruct (Z.eqb nc (Gen.eos_token word_index0)); [reflexivity|].
  apply IH.
Qed.

Lemma greedy_pick_logs : Gen.pick_logs rng Gen.Scores (Gen.greedy_pick rng).
Proof.
  intros out w. exists (Ops.tf_argmax out), (Gen.np_random rng w). reflexivity.
Qed.

Lemma soft_pick_logs (T : R) :
  Gen.pick_logs rng (fun out => Gen.Probs (Tensor.rescale lib out T))
    (fun out =>
       Gen.soft_pick rng np_random_multinomial (Tensor.rescale lib out T)).
Proof.
  intros out w. unfold Gen.soft_pick.
  destruct (np_random_multinomial _ 1 _ 1) as [a g].
  eexists _, g. reflexivity.
Qed.

Lemma loop_with_trace (prep : list R -> Gen.dist)
    (pick : list R -> Gen.M rng Z) (model : Gen.keras_model) :
  Gen.pick_logs rng prep pick ->
  forall (n : nat) (seed gs : list Z) (l : Gen.locals) (w w' : Gen.world rng)
         (res : result Gen.locals),
    Gen.inv seed gs l ->
    Gen.loop_with rng word_index0 pick model n l w = (res, w') ->
    exists E r,
      Gen.trace rng w' = Gen.trace rng w ++ E
      /\ Gen.loop_trace word_index0 model prep seed n gs E r
      /\ match res with
         | Ok l' => exists gs', r = Ok gs' /\ Gen.inv seed gs' l'
         | Raise e => r = Raise e
         end.
Proof.
  intros Hpick. induction n as [|n IH]; intros seed gs l w w' res Hinv Hrun.
  - simpl in Hrun. injection Hrun as <- <-.
    exists [], (Ok gs). rewrite app_nil_r.
    split; [reflexivity|]. split; [constructor|]. eauto.
  - simpl in Hrun. unfold Gen.bind at 1 in Hrun. unfold Gen.model_step in Hrun.
    rewrite (Gen.inv_inp_val _ _ _ Hinv) in Hrun.
    destruct (Gen.next_out word_index0 model (Gen.feed seed gs))
      as [out|e] eqn:Hout.
    + unfold Gen.bind at 1 in Hrun.
      destruct (Hpick out (Gen.World rng (Gen.np_random rng w)
                  (Gen.trace rng w ++
                     [Gen.EvModel (Gen.feed seed gs) (Ok out)])))
        as (r & g & Hp).
      rewrite Hp in Hrun. simpl in Hrun.
      destruct r as [nc|e].
      * destruct (Z.eqb_spec nc (Gen.eos_token word_index0)) as [->|Hne].
        -- injection Hrun as <- <-. simpl.
           eexists [_; _], (Ok gs). rewrite <- app_assoc. simpl.
           split; [reflexivity|]. split; [now apply Gen.lt_eos|]. eauto.
        -- destruct (IH seed (gs ++ [nc]) _ _ _ _ (inv_step _ _ _ nc Hinv) Hrun)
             as (E & r & Htr & Hlt & Hres).
           simpl in Htr. rewrite <- !app_assoc in Htr. simpl in Htr.
           eexists (_ :: _ :: E), r.
           split; [exact Htr|]. split; [|exact Hres].
           now apply Gen.lt_append.
      * injection Hrun as <- <-. simpl.
        eexists [_; _], (Raise e). rewrite <- app_assoc. simpl.
        split; [reflexivity|]. split; [now apply Gen.lt_pick_raises|].
        reflexivity.
    + injection Hrun as <- <-. simpl.
      eexists [_], (Raise e).
      split; [reflexivity|]. split; [now apply Gen.lt_model_raises|].
      reflexivity.
Qed.

End LoopFacts.

(** ** What a trace of the loop tells *)

Section TraceFacts.
Variable word_index0 : Gen.dict.
Variable model : Gen.keras_model.
Variable prep : list R -> Gen.dist.
Variable seed : list Z.

Local Abbreviation eos := (Gen.eos_token word_index0).
Local Abbreviation loop_trace := (Gen.loop_trace word_index0 model prep seed).
Local Abbreviation appended := (Gen.appended word_index0).

Lemma appended_model (i : list Z) (o : result (list R)) (E : list Gen.event) :
  appended (Gen.EvModel i o :: E) = appended E.
Proof. reflexivity. Qed.

Lemma appended_token_raise (d : Gen.dist) (e : exn) (E : list Gen.event) :
  appended (Gen.EvToken d (Raise e) :: E) = appended E.
Proof. reflexivity. Qed.

Lemma appended_token_eos (d : Gen.dist) (E : list Gen.event) :
  appended (Gen.EvToken d (Ok eos) :: E) = appended E.
Proof. unfold Gen.appended. simpl. now rewrite Z.eqb_refl. Qed.

Lemma appended_token_other (d : Gen.dist) (nc : Z) (E : list Gen.event) :
  nc <> eos -> appended (Gen.EvToken d (Ok nc) :: E) = nc :: appended E.
Proof.
  intros Hne. unfold Gen.appended. simpl.
  apply Z.eqb_neq in Hne. now rewrite Hne.
Qed.

(** Induction on a [loop_trace] derivation, with the names of its cases. *)
Ltac induct_trace :=
  induction 1
    as [gs|n gs e H|n gs out e H|n gs out H|n gs out nc E r H Hne Hlt IH].

Ltac simpl_appended :=
  rewrite ?appended_model, ?appended_token_raise, ?appended_token_eos.

Lemma appended_not_eos (E : list Gen.event) : eos ∉ appended E.
Proof.
  unfold Gen.appended. induction E as [|ev E IH]; simpl.
  - apply not_elem_of_nil.
  - destruct ev as [i o|d [nc|e]]; try exact IH.
    destruct (Z.eqb_spec nc eos) as [->|Hne]; [exact IH|].
    apply not_elem_of_cons. split; [congruence|exact IH].
Qed.

Lemma trace_counts (n : nat) (gs : list Z) (E : list Gen.event)
    (r : result (list Z)) :
  loop_trace n gs E r ->
  (length (Gen.model_inputs E) <= n)%nat
  /\ (length (Gen.picks E) <= length (Gen.model_inputs E))%nat
  /\ (length (appended E) <= length (Gen.picks E))%nat.
Proof.
  induct_trace;
    try (simpl_appended; simpl; lia).
  destruct IH as (IH1 & IH2 & IH3).
  rewrite appended_model, (appended_token_other _ _ _ Hne).
  simpl. lia.
Qed.

Lemma trace_result (n : nat) (gs : list Z) (E : list Gen.event)
    (r : result (list Z)) :
  loop_trace n gs E r ->
  forall gs', r = Ok gs' ->
    gs' = gs ++ appended E
    /\ length (Gen.picks E) = length (Gen.model_inputs E)
    /\ (length (appended E) = n \/ last (Gen.picks E) = Some (Ok eos)).
Proof.
  induct_trace;
    intros gs' Hr; try discriminate.
  - injection Hr as <-. simpl. rewrite app_nil_r. auto.
  - injection Hr as <-. simpl_appended. simpl.
    rewrite app_nil_r. auto.
  - destruct (IH gs' Hr) as (-> & Hlen & Hstop).
    rewrite appended_model, (appended_token_other _ _ _ Hne).
    simpl. rewrite <- app_assoc. simpl.
    split; [reflexivity|]. split; [lia|].
    destruct Hstop as [Hn|Hl]; [left; lia|right].
    destruct (Gen.picks E); [discriminate|exact Hl].
Qed.

Lemma trace_inputs (n : nat) (gs : list Z) (E : list Gen.event)
    (r : result (list Z)) :
  loop_trace n gs E r ->
  forall (k : nat) (i : list Z),
    Gen.model_inputs E !! k = Some i ->
    i = Gen.feed seed (gs ++ take k (appended E)).
Proof.
  induct_trace;
    intros k i Hk; simpl in Hk.
  - discriminate.
  - destruct k; [|discriminate]. injection Hk as <-.
    simpl. now rewrite app_nil_r.
  - destruct k; [|discriminate]. injection Hk as <-.
    simpl. now rewrite app_nil_r.
  - destruct k; [|discriminate]. injection Hk as <-.
    simpl. now rewrite app_nil_r.
  - rewrite appended_model, (appended_token_other _ _ _ Hne).
    destruct k as [|k].
    + injection Hk as <-. simpl. now rewrite app_nil_r.
    + simpl in Hk. rewrite (IH k i Hk). simpl.
      now rewrite <- app_assoc.
Qed.

Lemma trace_failures (n : nat) (gs : list Z) (E : list Gen.event)
    (r : result (list Z)) :
  loop_trace n gs E r ->
  (forall ev e, ev ∈ E -> Gen.failed ev e -> r = Raise e)
  /\ (forall e, r = Raise e -> exists ev, last E = Some ev /\ Gen.failed ev e).
Proof.
  induct_trace.
  - split; [intros ev e Hin; now apply elem_of_nil in Hin|discriminate].
  - split.
    + intros ev e' Hin Hf. apply list_elem_of_singleton in Hin. subst ev.
      simpl in Hf. now subst.
    + intros e' [= <-]. eexists. split; [reflexivity|]. reflexivity.
  - split.
    + intros ev e' Hin Hf.
      apply elem_of_cons in Hin as [->|Hin]; [contradiction|].
      apply list_elem_of_singleton in Hin. subst ev. simpl in Hf. now subst.
    + intros e' [= <-]. eexists. split; [reflexivity|]. reflexivity.
  - split; [|discriminate].
    intros ev e' Hin Hf.
    apply elem_of_cons in Hin as [->|Hin]; [contradiction|].
    apply list_elem_of_singleton in Hin. subst ev. contradiction.
  - destruct IH as [IH1 IH2]. split.
    + intros ev e' Hin Hf.
      apply elem_of_cons in Hin as [->|Hin]; [contradiction|].
      apply elem_of_cons in Hin as [->|Hin]; [contradiction|].
      now apply (IH1 ev).
    + intros e' Hr. destruct (IH2 e' Hr) as (ev & Hl & Hf).
      exists ev. split; [|exact Hf].
      destruct E as [|ev0 E]; [discriminate|]. exact Hl.
Qed.

(** Every distribution a token is computed from is [prep] of the output of
    the model call just before it. *)
Lemma trace_tokens (n : nat) (gs : list Z) (E : list Gen.event)
    (r : result (list Z)) :
  loop_trace n gs E r ->
  forall d p, Gen.EvToken d p ∈ E ->
    exists i out, Gen.EvModel i (Ok out) ∈ E
      /\ Gen.next_out word_index0 model i = Ok out /\ d = prep out.
Proof.
  induct_trace;
    intros d p Hin.
  - now apply elem_of_nil in Hin.
  - apply list_elem_of_singleton in Hin. discriminate.
  - apply elem_of_cons in Hin as [Hin|Hin]; [discriminate|].
    apply list_elem_of_singleton in Hin. injection Hin as -> ->.
    exists (Gen.feed seed gs), out. split; [apply list_elem_of_here|]. auto.
  - apply elem_of_cons in Hin as [Hin|Hin]; [discriminate|].
    apply list_elem_of_singleton in Hin. injection Hin as -> ->.
    exists (Gen.feed seed gs), out. split; [apply list_elem_of_here|]. auto.
  - apply elem_of_cons in Hin as [Hin|Hin]; [discriminate|].
    apply elem_of_cons in Hin as [Hin|Hin].
    + injection Hin as -> ->.
      exists (Gen.feed seed gs), out. split; [apply list_elem_of_here|]. auto.
    + destruct (IH d p Hin) as (i & o & Hi & Ho & Hd).
      exists i, o. split; [|auto].
      now apply list_elem_of_further, list_elem_of_further.
Qed.

(** The outcomes of the token computations determine the whole run. *)
Lemma trace_determined (n : nat) (gs : list Z) (E1 : list Gen.event)
    (r1 : result (list Z)) :
  loop_trace n gs E1 r1 ->
  forall E2 r2, loop_trace n gs E2 r2 ->
    Gen.picks E1 = Gen.picks E2 -> E1 = E2 /\ r1 = r2.
Proof.
  induct_trace;
    intros E2 r2 H2 Hp; inversion H2; subst; simpl in Hp;
    try congruence; try (split; congruence).
  match goal with
  | Ho : Gen.next_out _ _ _ = Ok ?o |- _ =>
      assert (o = out) as -> by congruence
  end.
  injection Hp as -> Hp.
  match goal with
  | Hl : Gen.loop_trace _ _ _ _ _ _ ?E' ?r' |- _ =>
      destruct (IH E' r' Hl Hp) as [-> ->]
  end.
  auto.
Qed.

End TraceFacts.

(** ** [tf.argmax] *)

Lemma Rltb_true (a b : R) : Ops.Rltb a b = true <-> (a < b)%R.
Proof.
  unfold Ops.Rltb. destruct (Rlt_dec a b); split; intros; try done.
Qed.

Lemma argmax_from_first_max (pre l : list R) (best_i : nat) (best : R) :
  (best_i < length pre)%nat ->
  (pre ++ l) !! best_i = Some best ->
  (forall (j : nat) (y : R),
      (j < length pre)%nat -> (pre ++ l) !! j = Some y -> (y <= best)%R) ->
  (forall (j : nat) (y : R),
      (j < best_i)%nat -> (pre ++ l) !! j = Some y -> (y < best)%R) ->
  Ops.is_first_max (pre ++ l)
    (Ops.argmax_from Ops.Rltb best_i best (length pre) l).
Proof.
  revert pre best_i best.
  induction l as [|x l IH]; intros pre best_i best Hlt Hbest Hle Hfirst.
  - simpl. exists best. split; [exact Hbest|]. split; [|exact Hfirst].
    intros j y Hj. apply (Hle j y); [|exact Hj].
    apply lookup_lt_Some in Hj. now rewrite app_nil_r in Hj.
  - simpl.
    assert (Hx : (pre ++ x :: l) !! length pre = Some x)
      by now apply list_lookup_middle.
    replace (pre ++ x :: l) with ((pre ++ [x]) ++ l) in *
      by now rewrite <- app_assoc.
    replace (S (length pre)) with (length (pre ++ [x]))
      by (rewrite length_app; simpl; lia).
    destruct (Ops.Rltb best x) eqn:Hcmp.
    + apply Rltb_true in Hcmp. apply IH.
      * rewrite length_app. simpl. lia.
      * exact Hx.
      * intros j y Hj Hy. rewrite length_app in Hj. simpl in Hj.
        destruct (decide (j = length pre)) as [->|Hne].
        -- rewrite Hx in Hy. injection Hy as ->. lra.
        -- assert (y <= best)%R by (apply (Hle j y); [lia|exact Hy]). lra.
      * intros j y Hj Hy.
        assert (y <= best)%R by (apply (Hle j y); [lia|exact Hy]). lra.
    + assert (Hge : ~ (best < x)%R).
      { intros Hc. apply Rltb_true in Hc. congruence. }
      apply IH.
      * rewrite length_app. simpl. lia.
      * exact Hbest.
      * intros j y Hj Hy. rewrite length_app in Hj. simpl in Hj.
        destruct (decide (j = length pre)) as [->|Hne].
        -- rewrite Hx in Hy. injection Hy as ->. lra.
        -- apply (Hle j y); [lia|exact Hy].
      * exact Hfirst.
Qed.

Lemma tf_argmax_first_max (d : list R) (nc : Z) :
  Ops.tf_argmax d = Ok nc ->
  exists i : nat, nc = Z.of_nat i /\ Ops.is_first_max d i.
Proof.
  unfold Ops.tf_argmax, Ops.argmax. destruct d as [|x l]; [discriminate|].
  intros [= <-]. eexists. split; [reflexivity|].
  apply (argmax_from_first_max [x] l 0 x); simpl; try lia; try reflexivity.
  - intros [|j] y Hj Hy; [|lia]. injection Hy as ->. lra.
Qed.

(** ** Whole runs *)

Section RunFacts.
Variable rng : Type.
Variable np_random_multinomial :
  rng -> Z -> list Float.float -> Z -> result (list (list Z)) * rng.
Variable lib : Float.lib.
Variable word_index0 : Gen.dict.
Variable texts_to_sequences : Gen.dict -> list string -> list (list Z).

Local Abbreviation decode := (Gen.decode word_index0).
Local Abbreviation encode_seed :=
  (Gen.encode_seed word_index0 texts_to_sequences).
Local Abbreviation run_outcome :=
  (Gen.run_outcome rng word_index0 texts_to_sequences).

Lemma loop_run_outcome (prep : list R -> Gen.dist)
    (pick : list R -> Gen.M rng Z) (model : Gen.keras_model)
    (size : Z) (start : string) (g : rng) :
  Gen.pick_logs rng prep pick ->
  forall res w,
    match encode_seed start with
    | Raise e => (Raise e, Gen.World rng g [])
    | Ok seed =>
        match Gen.loop_with rng word_index0 pick model (Z.to_nat size)
                (Gen.Locals [seed] 0 0) (Gen.World rng g []) with
        | (Ok l, w') =>
            (Ok (decode (Gen.deref (Gen.store l) (Gen.chars l))), w')
        | (Raise e, w') => (Raise e, w')
        end
    end = (res, w) ->
    run_outcome model prep size start res w.
Proof.
  intros Hpick res w. unfold Gen.run_outcome.
  destruct (encode_seed start) as [seed|e].
  - destruct (Gen.loop_with _ _ _ _ _ _ _) as [lres w1] eqn:Hloop.
    destruct (loop_with_trace rng word_index0 prep pick model Hpick
                _ seed [] _ _ _ _ (inv_initial seed) Hloop)
      as (E & r & Htr & Hlt & Hres).
    simpl in Htr. subst E.
    destruct lres as [l|e].
    + intros [= <- <-]. destruct Hres as (gs' & -> & Hinv).
      exists (Ok gs'). split; [exact Hlt|]. simpl.
      now rewrite (Gen.inv_chars_val _ _ _ Hinv).
    + intros [= <- <-]. subst r. exists (Raise e). split; [exact Hlt|].
      reflexivity.
  - intros [= <- <-]. auto.
Qed.

Lemma generate_outcome (model : Gen.keras_model) (size : Z) (start : string)
    (g : rng) :
  let r := Gen.run rng
             (Gen.generate rng word_index0 texts_to_sequences model size start)
             g in
  run_outcome model Gen.Scores size start r.1 r.2.
Proof.
  intros r. apply (loop_run_outcome _ (Gen.greedy_pick rng) model size start g
                     (greedy_pick_logs rng)).
  subst r. unfold Gen.run, Gen.generate, Gen.bind, Gen.lift, Gen.ret.
  destruct (encode_seed start) as [seed|e]; [|reflexivity].
  rewrite generate_loop_shape.
  destruct (Gen.loop_with _ _ _ _ _ _ _) as [[l|e] w1]; reflexivity.
Qed.

Lemma generate_soft_outcome (model : Gen.keras_model) (size : Z)
    (start : string) (T : R) (g : rng) :
  let r := Gen.run rng
             (Gen.generate_soft rng np_random_multinomial lib word_index0
                texts_to_sequences model size start T) g in
  run_outcome model (fun out => Gen.Probs (Tensor.rescale lib out T))
    size start r.1 r.2.
Proof.
  intros r. apply (loop_run_outcome _ _ model size start g
                     (soft_pick_logs rng np_random_multinomial lib T)).
  subst r. unfold Gen.run, Gen.generate_soft, Gen.bind, Gen.lift, Gen.ret.
  destruct (encode_seed start) as [seed|e]; [|reflexivity].
  rewrite generate_soft_loop_shape.
  destruct (Gen.loop_with _ _ _ _ _ _ _) as [[l|e] w1]; reflexivity.
Qed.

(** The greedy loop never touches the random generator. *)
Lemma greedy_loop_keeps_generator (model : Gen.keras_model) (n : nat)
    (l : Gen.locals) (w : Gen.world rng) :
  Gen.np_random rng (Gen.generate_loop rng word_index0 model n l w).2 =
  Gen.np_random rng w.
Proof.
  revert l w. induction n as [|n IH]; intros l w; [reflexivity|].
  simpl. unfold Gen.bind, Gen.model_step, Gen.greedy_pick.
  destruct (Gen.next_out _ _ _) as [out|e]; [|reflexivity].
  destruct (Ops.tf_argmax out) as [nc|e]; [|reflexivity].
  destruct (Z.eqb nc _); [reflexivity|].
  simpl. now rewrite IH.
Qed.

(** The soft loop calls the sampler once for each token it computes, on
    the vector it has just rescaled, and threads the generator through the
    calls. *)
Lemma soft_loop_draws (model : Gen.keras_model) (T : R) (n : nat) :
  forall (l : Gen.locals) (w w' : Gen.world rng) (res : result Gen.locals),
    Gen.generate_soft_loop rng np_random_multinomial lib word_index0
      model T n l w = (res, w') ->
    exists E,
      Gen.trace rng w' = Gen.trace rng w ++ E
      /\ Gen.draws rng np_random_multinomial (Gen.np_random rng w)
           (Gen.sampled E)
         = (Gen.picks E, Gen.np_random rng w').
Proof.
  induction n as [|n IH]; intros l w w' res Hrun.
  - injection Hrun as <- <-. exists []. simpl. now rewrite app_nil_r.
  - simpl in Hrun. unfold Gen.bind at 1 in Hrun. unfold Gen.model_step in Hrun.
    set (i := Gen.deref (Gen.store l) (Gen.inp l)) in *.
    destruct (Gen.next_out word_index0 model i) as [out|e].
    + unfold Gen.bind at 1 in Hrun. unfold Gen.soft_pick in Hrun.
      simpl in Hrun.
      set (probs := Tensor.rescale lib out T) in *.
      destruct (np_random_multinomial (Gen.np_random rng w) 1 probs 1)
        as [a g'] eqn:Hdraw.
      remember (result_bind a Ops.np_argmax) as r eqn:Hr.
      assert (Hone : forall E' g'',
                Gen.draws rng np_random_multinomial g' (Gen.sampled E')
                  = (Gen.picks E', g'') ->
                Gen.draws rng np_random_multinomial (Gen.np_random rng w)
                  (Gen.sampled (Gen.EvModel i (Ok out)
                                  :: Gen.EvToken (Gen.Probs probs) r :: E'))
                = (Gen.picks (Gen.EvModel i (Ok out)
                                :: Gen.EvToken (Gen.Probs probs) r :: E'),
                   g'')).
      { intros E' g'' HE'. change (Gen.sampled (_ :: _ :: E'))
          with (probs :: Gen.sampled E').
        change (Gen.picks (_ :: _ :: E')) with (r :: Gen.picks E').
        simpl. now rewrite Hdraw, HE', Hr. }
      clear Hr. destruct r as [nc|e].
      * destruct (Z.eqb nc _).
        -- injection Hrun as <- <-.
           exists [Gen.EvModel i (Ok out); Gen.EvToken (Gen.Probs probs) (Ok nc)].
           split; [simpl; now rewrite <- app_assoc|]. now apply Hone.
        -- destruct (IH _ _ _ _ Hrun) as (E & Htr & Hd).
           simpl in Htr, Hd. rewrite <- !app_assoc in Htr. simpl in Htr.
           exists (Gen.EvModel i (Ok out)
                     :: Gen.EvToken (Gen.Probs probs) (Ok nc) :: E).
           split; [exact Htr|]. now apply Hone.
      * injection Hrun as <- <-.
        exists [Gen.EvModel i (Ok out);
                Gen.EvToken (Gen.Probs probs) (Raise e)].
        split; [simpl; now rewrite <- app_assoc|]. now apply Hone.
    + injection Hrun as <- <-. exists [Gen.EvModel i (Raise e)].
      split; reflexivity.
Qed.

Lemma generate_soft_draws (model : Gen.keras_model) (size : Z)
    (start : string) (T : R) (g : rng) :
  let r := Gen.run rng
             (Gen.generate_soft rng np_random_multinomial lib word_index0
                texts_to_sequences model size start T) g in
  Gen.draws rng np_random_multinomial g (Gen.sampled (Gen.trace rng r.2))
  = (Gen.picks (Gen.trace rng r.2), Gen.np_random rng r.2).
Proof.
  intros r. subst r.
  unfold Gen.run, Gen.generate_soft, Gen.bind, Gen.lift, Gen.ret.
  destruct (encode_seed start) as [seed|e]; [|reflexivity].
  destruct (Gen.generate_soft_loop _ _ _ _ _ _ _ _ _) as [lres w1] eqn:Hloop.
  destruct (soft_loop_draws model T _ _ _ _ _ Hloop) as (E & Htr & Hd).
  simpl in Htr, Hd. subst E.
  destruct lres as [l|e]; exact Hd.
Qed.

End RunFacts.

(** ** The generators: the stated properties *)

Section GeneratorClaims.
Variable rng : Type.
Variable np_random_multinomial :
  rng -> Z -> list Float.float -> Z -> result (list (list Z)) * rng.
Variable lib : Float.lib.
Variable word_index0 : Gen.dict.
Variable texts_to_sequences : Gen.dict -> list string -> list (list Z).

Local Abbreviation eos := (Gen.eos_token word_index0).
Local Abbreviation decode := (Gen.decode word_index0).
Local Abbreviation appended := (Gen.appended word_index0).
Local Abbreviation encode_seed :=
  (Gen.encode_seed word_index0 texts_to_sequences).
Local Abbreviation generate :=
  (Gen.generate rng word_index0 texts_to_sequences).
Local Abbreviation generate_soft :=
  (Gen.generate_soft rng np_random_multinomial lib word_index0
     texts_to_sequences).
Local Abbreviation draws := (Gen.draws rng np_random_multinomial).
Local Abbreviation run_outcome :=
  (Gen.run_outcome rng word_index0 texts_to_sequences).

(** What [run_outcome] gives once the seed is known. *)
Lemma outcome_with_seed (model : Gen.keras_model) (prep : list R -> Gen.dist)
    (size : Z) (start : string) (res : result string) (w : Gen.world rng)
    (seed : list Z) :
  run_outcome model prep size start res w ->
  encode_seed start = Ok seed ->
  exists toks,
    Gen.loop_trace word_index0 model prep seed (Z.to_nat size) []
      (Gen.trace rng w) toks
    /\ res = result_map (fun gs => decode (seed ++ gs)) toks.
Proof. unfold Gen.run_outcome. intros H Hs. now rewrite Hs in H. Qed.

Lemma outcome_counts (model : Gen.keras_model) (prep : list R -> Gen.dist)
    (size : Z) (start : string) (res : result string) (w : Gen.world rng) :
  run_outcome model prep size start res w ->
  (length (Gen.picks (Gen.trace rng w))
     <= length (Gen.model_inputs (Gen.trace rng w)) <= Z.to_nat size)%nat
  /\ (length (appended (Gen.trace rng w))
        <= length (Gen.picks (Gen.trace rng w)))%nat.
Proof.
  unfold Gen.run_outcome. destruct (encode_seed start) as [seed|e].
  - intros (toks & Hlt & _).
    destruct (trace_counts _ _ _ _ _ _ _ _ Hlt) as (H1 & H2 & H3). lia.
  - intros [_ ->]. simpl. lia.
Qed.

Lemma outcome_tokens (model : Gen.keras_model) (prep : list R -> Gen.dist)
    (size : Z) (start : string) (res : result string) (w : Gen.world rng) :
  run_outcome model prep size start res w ->
  forall d p, Gen.EvToken d p ∈ Gen.trace rng w ->
    exists i out, Gen.EvModel i (Ok out) ∈ Gen.trace rng w
      /\ Gen.next_out word_index0 model i = Ok out /\ d = prep out.
Proof.
  unfold Gen.run_outcome. destruct (encode_seed start) as [seed|e].
  - intros (toks & Hlt & _). exact (trace_tokens _ _ _ _ _ _ _ _ Hlt).
  - intros [_ ->] d p Hin. now apply elem_of_nil in Hin.
Qed.

Lemma outcome_returned (model : Gen.keras_model) (prep : list R -> Gen.dist)
    (size : Z) (start : string) (res : result string) (w : Gen.world rng) :
  run_outcome model prep size start res w ->
  forall seed s, encode_seed start = Ok seed -> res = Ok s ->
    s = decode (seed ++ appended (Gen.trace rng w))
    /\ length (Gen.picks (Gen.trace rng w))
       = length (Gen.model_inputs (Gen.trace rng w))
    /\ (length (appended (Gen.trace rng w)) = Z.to_nat size
        \/ last (Gen.picks (Gen.trace rng w)) = Some (Ok eos)).
Proof.
  intros Hout seed s Hseed ->.
  destruct (outcome_with_seed _ _ _ _ _ _ _ Hout Hseed) as (toks & Hlt & Hres).
  destruct toks as [gs|e]; [|discriminate]. injection Hres as ->.
  destruct (trace_result _ _ _ _ _ _ _ _ Hlt gs eq_refl) as (-> & Hlen & Hstop).
  auto.
Qed.

Lemma draws_length (ds : list (list Float.float)) :
  forall g : rng, length (draws g ds).1 = length ds.
Proof.
  induction ds as [|d ds IH]; intros g; [reflexivity|].
  simpl. destruct (np_random_multinomial g 1 d 1) as [a g'].
  specialize (IH g'). destruct (draws g' ds) as [rs g'']. simpl in *.
  now rewrite IH.
Qed.


Lemma greedy_loop_tokens (model : Gen.keras_model) (n : nat)
    (l : Gen.locals) (w : Gen.world rng) :
  let Q := fun ev => match ev with
                     | Gen.EvToken d p =>
                         exists out, d = Gen.Scores out /\ p = Ops.tf_argmax out
                     | _ => True
                     end in
  Forall Q (Gen.trace rng w) ->
  Forall Q (Gen.trace rng (Gen.generate_loop rng word_index0 model n l w).2).
Proof.
  intros Q. revert l w. induction n as [|n IH]; intros l w Hw; [exact Hw|].
  simpl. unfold Gen.bind, Gen.model_step, Gen.greedy_pick.
  destruct (Gen.next_out _ _ _) as [out|e]; simpl.
  - assert (Hw2 : Forall Q ((Gen.trace rng w ++
                    [Gen.EvModel (Gen.deref (Gen.store l) (Gen.inp l)) (Ok out)])
                    ++ [Gen.EvToken (Gen.Scores out) (Ops.tf_argmax out)])).
    { apply Forall_app. split; [apply Forall_app; split; [exact Hw|]|];
        repeat constructor. now exists out. }
    destruct (Ops.tf_argmax out) as [nc|e] eqn:Harg; simpl; [|exact Hw2].
    destruct (Z.eqb nc _); simpl; [exact Hw2|].
    apply IH. exact Hw2.
  - apply Forall_app. split; [exact Hw|]. repeat constructor.
Qed.


Lemma outcome_fed_twice (model : Gen.keras_model) (prep : list R -> Gen.dist)
    (size : Z) (start : string) (res : result string) (w : Gen.world rng)
    (seed : list Z) :
  run_outcome model prep size start res w ->
  encode_seed start = Ok seed ->
  Gen.fed_first_token_twice seed (appended (Gen.trace rng w))
    (Gen.trace rng w).
Proof.
  intros Hout Hseed.
  destruct (outcome_with_seed _ _ _ _ _ _ _ Hout Hseed) as (toks & Hlt & _).
  split.
  - intros i Hi. rewrite (trace_inputs _ _ _ _ _ _ _ _ Hlt 0%nat i Hi).
    simpl. apply feed_nil.
  - intros k g1 rest i Hgs Hi.
    rewrite (trace_inputs _ _ _ _ _ _ _ _ Hlt (S k) i Hi).
    rewrite Hgs. reflexivity.
Qed.

(** C8: [chars = inp] aliases the seed list, so the first [chars.append(nc)]
    also changes [inp] before [inp = inp + [nc]] copies it. In both
    functions the model is first fed the seed, and from its second call on
    it is fed the seed, the first generated token twice, and then each
    later generated token once; the returned string decodes the seed
    followed by each generated token once. *)
Theorem aliased_seed_repeats_first_token (model : Gen.keras_model)
    (size : Z) (start : string) (T : R) (g : rng) :
  let rg := Gen.run rng (generate model size start) g in
  let rs := Gen.run rng (generate_soft model size start T) g in
  let Eg := Gen.trace rng rg.2 in
  let Es := Gen.trace rng rs.2 in
  match encode_seed start with
  | Raise e => rg.1 = Raise e /\ rs.1 = Raise e
  | Ok seed =>
      (Gen.fed_first_token_twice seed (appended Eg) Eg
       /\ (length (appended Eg) <= length (Gen.model_inputs Eg))%nat
       /\ (forall s, rg.1 = Ok s -> s = decode (seed ++ appended Eg)))
      /\ (Gen.fed_first_token_twice seed (appended Es) Es
          /\ (length (appended Es) <= length (Gen.model_inputs Es))%nat
          /\ (forall s, rs.1 = Ok s -> s = decode (seed ++ appended Es)))
  end.
Proof.
  intros rg rs Eg Es.
  pose proof (generate_outcome rng word_index0 texts_to_sequences
                model size start g) as Hg.
  pose proof (generate_soft_outcome rng np_random_multinomial lib word_index0
                texts_to_sequences model size start T g) as Hs.
  cbv zeta in Hg, Hs. fold rg in Hg. fold rs in Hs.
  destruct (encode_seed start) as [seed|e] eqn:Hseed.
  - split.
    + split; [exact (outcome_fed_twice _ _ _ _ _ _ _ Hg Hseed)|].
      split; [pose proof (outcome_counts _ _ _ _ _ _ Hg); subst Eg; lia|].
      intros s Hres.
      now destruct (outcome_returned _ _ _ _ _ _ Hg seed s Hseed Hres).
    + split; [exact (outcome_fed_twice _ _ _ _ _ _ _ Hs Hseed)|].
      split; [pose proof (outcome_counts _ _ _ _ _ _ Hs); subst Es; lia|].
      intros s Hres.
      now destruct (outcome_returned _ _ _ _ _ _ Hs seed s Hseed Hres).
  - unfold Gen.run_outcome in Hg, Hs. rewrite Hseed in Hg, Hs.
    split; [apply Hg|apply Hs].
Qed.

Lemma loop_final_chars (prep : list R -> Gen.dist)
    (pick : list R -> Gen.M rng Z) (model : Gen.keras_model)
    (n : nat) (seed : list Z) (w : Gen.world rng) (l' : Gen.locals) :
  Gen.pick_logs rng prep pick ->
  (Gen.loop_with rng word_index0 pick model n (Gen.Locals [seed] 0 0) w).1
    = Ok l' ->
  exists gs, Gen.deref (Gen.store l') (Gen.chars l') = seed ++ gs
    /\ (eos ∉ gs).
Proof.
  intros Hpick Hres.
  destruct (Gen.loop_with _ _ _ _ _ _ _) as [res w'] eqn:Hloop.
  simpl in Hres. subst res.
  destruct (loop_with_trace rng word_index0 prep pick model Hpick
              _ seed [] _ _ _ _ (inv_initial seed) Hloop)
    as (E & r & _ & Hlt & gs' & -> & Hinv).
  destruct (trace_result _ _ _ _ _ _ _ _ Hlt gs' eq_refl) as (-> & _).
  exists (appended E). split; [apply (Gen.inv_chars_val _ _ _ Hinv)|].
  apply appended_not_eos.
Qed.

Lemma decode_without_entry (t : Z) (x : list Z) :
  t ∉ x ->
  decode x = Gen.decode_with (delete t (Gen.reverse_map word_index0)) x.
Proof.
  intros Hx. unfold Gen.decode, Gen.decode_with. f_equal.
  apply map_ext_in. intros u Hu. apply list_elem_of_In in Hu.
  rewrite lookup_delete_ne; [reflexivity|]. intros ->. contradiction.
Qed.

Lemma loop_chars_without_eos (seed : list Z) (l' : Gen.locals) :
  (exists gs, Gen.deref (Gen.store l') (Gen.chars l') = seed ++ gs
     /\ (eos ∉ gs)) ->
  let chars := Gen.deref (Gen.store l') (Gen.chars l') in
  exists gs, chars = seed ++ gs
    /\ (eos ∉ gs)
    /\ ((eos ∉ seed) ->
          (eos ∉ chars)
          /\ decode chars =
             Gen.decode_with (delete eos (Gen.reverse_map word_index0)) chars).
Proof.
  intros (gs & Hc & Hgs) chars. exists gs. subst chars.
  split; [exact Hc|]. split; [exact Hgs|].
  intros Hseed.
  assert (eos ∉ Gen.deref (Gen.store l') (Gen.chars l'))
    by (rewrite Hc; apply not_elem_of_app; auto).
  split; [assumption|]. now apply decode_without_entry.
Qed.

(** C9: the comparison [nc == eos_token] comes before the append, so no
    generated token is [eos_token]. When either function returns, the list
    [chars] it hands to [decode] is the seed's encoding followed by tokens
    other than [eos_token]; when the seed's encoding has no [eos_token] the
    list has none, and [decode] does not use the entry of [eos_token] in
    [reverse_map]. *)
Theorem eos_token_never_appended (model : Gen.keras_model) (size : Z)
    (start : string) (T : R) (g : rng) :
  let n := Z.to_nat size in
  let w0 := Gen.World rng g [] in
  let rg := Gen.run rng (generate model size start) g in
  let rs := Gen.run rng (generate_soft model size start T) g in
  match encode_seed start with
  | Raise e => rg.1 = Raise e /\ rs.1 = Raise e
  | Ok seed =>
      let l0 := Gen.Locals [seed] 0 0 in
      let returned := fun (loop : result Gen.locals) (res : result string) =>
        forall s, res = Ok s ->
          exists l', loop = Ok l'
            /\ let chars := Gen.deref (Gen.store l') (Gen.chars l') in
               s = decode chars
               /\ exists gs, chars = seed ++ gs
                    /\ (eos ∉ gs)
                    /\ ((eos ∉ seed) ->
                          (eos ∉ chars)
                          /\ decode chars =
                             Gen.decode_with
                               (delete eos (Gen.reverse_map word_index0))
                               chars) in
      returned (Gen.generate_loop rng word_index0 model n l0 w0).1 rg.1
      /\ returned (Gen.generate_soft_loop rng np_random_multinomial lib
                     word_index0 model T n l0 w0).1 rs.1
  end.
Proof.
  intros n w0 rg rs.
  assert (Hrg : rg.1 =
            result_map (fun l => decode (Gen.deref (Gen.store l) (Gen.chars l)))
              (result_bind (encode_seed start) (fun seed =>
                 (Gen.generate_loop rng word_index0 model n
                    (Gen.Locals [seed] 0 0) w0).1))).
  { subst rg. unfold Gen.run, Gen.generate, Gen.bind, Gen.lift, Gen.ret.
    destruct (encode_seed start) as [seed|e]; [|reflexivity]. simpl.
    fold n. fold w0.
    now destruct (Gen.generate_loop _ _ _ _ _ _) as [[l'|e] w1]. }
  assert (Hrs : rs.1 =
            result_map (fun l => decode (Gen.deref (Gen.store l) (Gen.chars l)))
              (result_bind (encode_seed start) (fun seed =>
                 (Gen.generate_soft_loop rng np_random_multinomial lib
                    word_index0 model T n (Gen.Locals [seed] 0 0) w0).1))).
  { subst rs. unfold Gen.run, Gen.generate_soft, Gen.bind, Gen.lift, Gen.ret.
    destruct (encode_seed start) as [seed|e]; [|reflexivity]. simpl.
    fold n. fold w0.
    now destruct (Gen.generate_soft_loop _ _ _ _ _ _ _ _ _) as [[l'|e] w1]. }
  destruct (encode_seed start) as [seed|e]; [|auto].
  simpl in Hrg, Hrs. cbv beta iota zeta. split.
  - rewrite Hrg.
    destruct (Gen.generate_loop _ _ _ _ _ _).1 as [l'|e] eqn:Hloop;
      simpl; intros s [= <-].
    exists l'. split; [reflexivity|].
    split; [reflexivity|]. apply loop_chars_without_eos.
    apply (loop_final_chars Gen.Scores (Gen.greedy_pick rng) model n
             seed w0 l' (greedy_pick_logs rng)).
    now rewrite <- generate_loop_shape.
  - rewrite Hrs.
    destruct (Gen.generate_soft_loop _ _ _ _ _ _ _ _ _).1 as [l'|e] eqn:Hloop;
      simpl; intros s [= <-].
    exists l'. split; [reflexivity|].
    split; [reflexivity|]. apply loop_chars_without_eos.
    apply (loop_final_chars _ _ model n seed w0 l'
             (soft_pick_logs rng np_random_multinomial lib T)).
    now rewrite <- generate_soft_loop_shape.
Qed.

Lemma outcome_determined (model : Gen.keras_model) (prep : list R -> Gen.dist)
    (size : Z) (start : string) (res1 res2 : result string)
    (w1 w2 : Gen.world rng) :
  run_outcome model prep size start res1 w1 ->
  run_outcome model prep size start res2 w2 ->
  Gen.picks (Gen.trace rng w1) = Gen.picks (Gen.trace rng w2) ->
  res1 = res2 /\ Gen.trace rng w1 = Gen.trace rng w2.
Proof.
  unfold Gen.run_outcome. destruct (encode_seed start) as [seed|e].
  - intros (t1 & Hlt1 & ->) (t2 & Hlt2 & ->) Hp.
    destruct (trace_determined _ _ _ _ _ _ _ _ Hlt1 _ _ Hlt2 Hp) as [HE ->].
    auto.
  - intros [-> ->] [-> ->] _. auto.
Qed.

(** C3, as the code has it: [generate_soft] draws from NumPy's global
    generator, so its result is a function of its arguments and of what the
    sampler returns. Two runs with the same arguments in which the token
    computations have the same outcomes make the same library calls and
    return the same result, whatever the states of the generator; and a run
    computes at most [size] tokens. *)
Theorem generate_soft_determined_by_draws (model : Gen.keras_model)
    (size : Z) (start : string) (T : R) (g1 g2 : rng) :
  let r1 := Gen.run rng (generate_soft model size start T) g1 in
  let r2 := Gen.run rng (generate_soft model size start T) g2 in
  Gen.picks (Gen.trace rng r1.2) = Gen.picks (Gen.trace rng r2.2) ->
  r1.1 = r2.1
  /\ Gen.trace rng r1.2 = Gen.trace rng r2.2
  /\ (length (Gen.picks (Gen.trace rng r1.2)) <= Z.to_nat size)%nat.
Proof.
  intros r1 r2 Hp.
  pose proof (generate_soft_outcome rng np_random_multinomial lib word_index0
                texts_to_sequences model size start T g1) as H1.
  pose proof (generate_soft_outcome rng np_random_multinomial lib word_index0
                texts_to_sequences model size start T g2) as H2.
  cbv zeta in H1, H2. fold r1 in H1. fold r2 in H2.
  destruct (outcome_determined _ _ _ _ _ _ _ _ H1 H2 Hp) as [Hr Ht].
  split; [exact Hr|]. split; [exact Ht|].
  pose proof (outcome_counts _ _ _ _ _ _ H1). lia.
Qed.

End GeneratorClaims.

(** ** [decode] *)

Lemma string_app_nil_r (s : string) : String.append s "" = s.
Proof.
  induction s as [|c s IH]; [reflexivity|].
  change (String c (String.append s "") = String c s). now f_equal.
Qed.

Lemma string_app_assoc (a b c : string) :
  String.append (String.append a b) c = String.append a (String.append b c).
Proof.
  induction a as [|x a IH]; [reflexivity|].
  change (String x (String.append (String.append a b) c) =
          String x (String.append a (String.append b c))).
  now f_equal.
Qed.

Lemma join_cons (s : string) (l : list string) :
  String.concat "" (s :: l) = String.append s (String.concat "" l).
Proof.
  destruct l as [|t l]; [|reflexivity].
  change (String.concat "" [s]) with s.
  change (String.concat "" []) with EmptyString.
  symmetry. apply string_app_nil_r.
Qed.

Lemma join_app (l k : list string) :
  String.concat "" (l ++ k) =
  String.append (String.concat "" l) (String.concat "" k).
Proof.
  induction l as [|s l IH]; [reflexivity|].
  change ((s :: l) ++ k) with (s :: (l ++ k)).
  now rewrite !join_cons, IH, string_app_assoc.
Qed.

Lemma reverse_fold_lookup_None (d : Gen.dict) (m : gmap Z string) (t : Z) :
  m !! t = None -> t ∉ d.*2 ->
  foldl (fun m kv => <[kv.2 := kv.1]> m) m d !! t = None.
Proof.
  revert m. induction d as [|[k v] d IH]; intros m Hm Hd; [exact Hm|].
  simpl in *. apply not_elem_of_cons in Hd as [Hne Hd].
  apply IH; [|exact Hd]. rewrite lookup_insert_ne; [exact Hm|congruence].
Qed.

Lemma dict_set_values (d : Gen.dict) (k : string) (v t : Z) :
  t ∈ (Gen.dict_set d k v).*2 -> t = v \/ t ∈ d.*2.
Proof.
  induction d as [|[k' v'] d IH]; simpl.
  - intros Hin. apply list_elem_of_singleton in Hin. auto.
  - destruct (String.eqb k' k); simpl; intros Hin;
      apply elem_of_cons in Hin as [->|Hin]; auto.
    + right. now apply list_elem_of_further.
    + right. apply list_elem_of_here.
    + destruct (IH Hin) as [->|H]; [auto|].
      right. now apply list_elem_of_further.
Qed.

Section DecodeClaims.
Variable word_index0 : Gen.dict.

Local Abbreviation eos := (Gen.eos_token word_index0).
Local Abbreviation decode := (Gen.decode word_index0).
Local Abbreviation reverse_map := (Gen.reverse_map word_index0).

Lemma decode_app (x y : list Z) :
  decode (x ++ y) = String.append (decode x) (decode y).
Proof. unfold Gen.decode. now rewrite List.map_app, join_app. Qed.

Lemma decode_unknown (t : Z) : reverse_map !! t = None -> decode [t] = "".
Proof. intros Ht. unfold Gen.decode. simpl. now rewrite Ht. Qed.

Lemma reverse_map_unknown (t : Z) :
  t <> eos -> t ∉ word_index0.*2 -> reverse_map !! t = None.
Proof.
  intros Hne Hd. unfold Gen.reverse_map.
  apply reverse_fold_lookup_None; [apply lookup_empty|].
  intros Hin. apply dict_set_values in Hin as [->|Hin]; contradiction.
Qed.

(** C10: [decode] is defined on every list of integers (a lookup with a
    default and a join cannot fail); an id without an entry in
    [reverse_map] contributes the empty string, so such ids are dropped
    wherever they stand; the ids without an entry include every id that is
    neither [eos_token] nor a value of [word_index], and so the padding id 0
    when the tokenizer numbers its characters from 1. *)
Theorem decode_drops_unknown_ids (x y : list Z) :
  decode (x ++ y) = String.append (decode x) (decode y)
  /\ (forall t, reverse_map !! t = None ->
        decode [t] = "" /\ decode (x ++ t :: y) = decode (x ++ y))
  /\ decode x = decode (filter (fun t => is_Some (reverse_map !! t)) x)
  /\ (forall t, t <> eos -> t ∉ word_index0.*2 -> reverse_map !! t = None)
  /\ (Forall (fun kv => 1 <= kv.2) word_index0 ->
        reverse_map !! 0 = None /\ decode (0 :: x) = decode x).
Proof.
  split; [apply decode_app|].
  split.
  { intros t Ht. split; [now apply decode_unknown|].
    change (t :: y) with ([t] ++ y).
    now rewrite !decode_app, (decode_unknown t Ht). }
  split.
  { induction x as [|t l IH]; [reflexivity|].
    change (t :: l) with ([t] ++ l) at 1. rewrite decode_app.
    rewrite filter_cons. destruct (decide (is_Some (reverse_map !! t))) as [Hs|Hn].
    - change (t :: filter _ l) with ([t] ++ filter (fun t0 => is_Some (reverse_map !! t0)) l).
      now rewrite decode_app, <- IH.
    - rewrite decode_unknown; [exact IH|].
      destruct (reverse_map !! t) eqn:E; [|reflexivity].
      exfalso. apply Hn. eauto. }
  split; [apply reverse_map_unknown|].
  intros Hpos.
  assert (H0 : reverse_map !! 0 = None).
  { apply reverse_map_unknown.
    - unfold Gen.eos_token. lia.
    - intros Hin. apply list_elem_of_fmap in Hin as ([k v] & Hv & Hin).
      rewrite Forall_forall in Hpos. specialize (Hpos _ Hin).
      simpl in *. lia. }
  split; [exact H0|].
  change (0 :: x) with ([0] ++ x).
  now rewrite decode_app, (decode_unknown 0 H0).
Qed.

End DecodeClaims.

(** ** The embedding-matrix population cell *)

Section PopulateFacts.
Variable get_vector : string -> result (list R).

Local Abbreviation known := (Embed.known get_vector).
Local Abbreviation body := (Embed.body get_vector).
Local Abbreviation populate_from := (Embed.populate_from get_vector).

(** One pass through the [try]/[except]: it never raises. *)
Lemma body_never_raises (cols : nat) (s : Embed.state) (i : nat) (w : string) :
  exists s1, body cols s i w = Ok s1
    /\ length (Embed.W s1) = length (Embed.W s)
    /\ (Embed.found s1 + Embed.not_found s1
        = Embed.found s + Embed.not_found s + 1)%nat
    /\ (Embed.not_found s <= Embed.not_found s1)%nat
    /\ (known w = false ->
          Embed.W s1 = Embed.W s
          /\ Embed.not_found s1 = (Embed.not_found s + 1)%nat)
    /\ (forall j : nat, j <> i -> Embed.W s1 !! j = Embed.W s !! j).
Proof.
  unfold Embed.body, Embed.try_block, Embed.known, Embed.set_row.
  destruct (get_vector w) as [v|e]; simpl;
    [destruct (decide (i < length (Embed.W s))%nat) as [Hi|Hi]; simpl;
     [destruct (decide (length v = cols)) as [Hv|Hv]; simpl;
      [|destruct v as [|x [|y v]]; simpl]|]|];
    (eexists; split; [reflexivity|]); simpl; rewrite ?length_insert;
    repeat split; try lia; try discriminate;
    try (intros j Hj; now rewrite ?list_lookup_insert_ne).
Qed.

Lemma populate_from_never_raises (cols : nat) (ws : list string) :
  forall (i : nat) (s : Embed.state),
  exists s', populate_from cols i ws s = Ok s'
    /\ length (Embed.W s') = length (Embed.W s)
    /\ (Embed.found s' + Embed.not_found s'
        = Embed.found s + Embed.not_found s + length ws)%nat
    /\ (Embed.not_found s + length (filter (fun w => known w = false) ws)
        <= Embed.not_found s')%nat
    /\ (forall j : nat, (j < i)%nat -> Embed.W s' !! j = Embed.W s !! j)
    /\ (forall (k : nat) (w : string), ws !! k = Some w -> known w = false ->
          Embed.W s' !! (i + k)%nat = Embed.W s !! (i + k)%nat).
Proof.
  induction ws as [|w ws IH]; intros i s.
  - exists s. simpl. repeat split; try lia; try (intros k w Hk; discriminate).
  - destruct (body_never_raises cols s i w)
      as (s1 & Hb & Hlen1 & Hsum1 & Hnf1 & Hunk1 & Hrows1).
    destruct (IH (S i) s1) as (s' & Hp & Hlen & Hsum & Hnf & Hbefore & Hrows).
    exists s'. simpl. rewrite Hb. simpl.
    split; [exact Hp|]. split; [congruence|]. split; [lia|].
    split; [|split].
    + rewrite filter_cons.
      destruct (decide (known w = false)) as [Hk|Hk]; simpl.
      * destruct (Hunk1 Hk) as [_ Hnf']. lia.
      * lia.
    + intros j Hj. rewrite Hbefore by lia. apply Hrows1. lia.
    + intros [|k] w' Hk Hunk.
      * injection Hk as ->. rewrite Nat.add_0_r.
        rewrite Hbefore by lia. now destruct (Hunk1 Hunk) as [-> _].
      * simpl in Hk. replace (i + S k)%nat with (S i + k)%nat by lia.
        rewrite (Hrows k w' Hk Hunk). apply Hrows1. lia.
Qed.

End PopulateFacts.

Section PropagationClaims.
Variable rng : Type.
Variable np_random_multinomial :
  rng -> Z -> list Float.float -> Z -> result (list (list Z)) * rng.
Variable lib : Float.lib.
Variable word_index0 : Gen.dict.
Variable texts_to_sequences : Gen.dict -> list string -> list (list Z).
Variable get_vector : string -> result (list R).
Variable vocab : list string.
Variable VOCAB_SIZE : nat.

Local Abbreviation encode_seed :=
  (Gen.encode_seed word_index0 texts_to_sequences).
Local Abbreviation run_outcome :=
  (Gen.run_outcome rng word_index0 texts_to_sequences).
Local Abbreviation populate := (Embed.populate get_vector vocab VOCAB_SIZE).
Local Abbreviation known := (Embed.known get_vector).

Lemma outcome_propagates (model : Gen.keras_model)
    (prep : list R -> Gen.dist)
    (size : Z) (start : string) (res : result string) (w : Gen.world rng) :
  run_outcome model prep size start res w ->
  (forall e, encode_seed start = Raise e -> res = Raise e)
  /\ (forall ev e, ev ∈ Gen.trace rng w -> Gen.failed ev e -> res = Raise e)
  /\ (forall e, res = Raise e ->
        encode_seed start = Raise e
        \/ exists ev, last (Gen.trace rng w) = Some ev /\ Gen.failed ev e).
Proof.
  unfold Gen.run_outcome. destruct (encode_seed start) as [seed|e0].
  - intros (toks & Hlt & ->).
    destruct (trace_failures _ _ _ _ _ _ _ _ Hlt) as [Hf1 Hf2].
    split; [discriminate|]. split.
    + intros ev e Hin Hf. now rewrite (Hf1 ev e Hin Hf).
    + intros e Hres. right. apply Hf2.
      destruct toks as [gs|e0]; [discriminate|].
      injection Hres as ->. reflexivity.
  - intros [-> ->]. split; [now intros e [= ->]|]. split.
    + intros ev e Hin. now apply elem_of_nil in Hin.
    + intros e [= ->]. now left.
Qed.

(** C6, as the code has it: the population loop is the one place that
    catches exceptions. Its bare [except:] swallows whatever the [try] block
    raises: the loop always ends normally, counts every word in [found] or
    [not_found], and leaves the row of a word unknown to Word2Vec as it was
    (zero). Outside that [try], exceptions propagate unchanged: the first
    line of the same cell raises what [get_vector] raises, and [generate] and
    [generate_soft] raise exactly the exception of the failing library call,
    and raise only then. *)
Theorem exceptions_propagate_except_in_populate (model : Gen.keras_model)
    (size : Z) (start : string) (T : R) (g : rng) :
  let rg := Gen.run rng
              (Gen.generate rng word_index0 texts_to_sequences
                 model size start) g in
  let rs := Gen.run rng
              (Gen.generate_soft rng np_random_multinomial lib word_index0
                 texts_to_sequences model size start T) g in
  let propagates := fun r : result string * Gen.world rng =>
    (forall e, encode_seed start = Raise e -> r.1 = Raise e)
    /\ (forall ev e, ev ∈ Gen.trace rng r.2 -> Gen.failed ev e ->
          r.1 = Raise e)
    /\ (forall e, r.1 = Raise e ->
          encode_seed start = Raise e
          \/ exists ev, last (Gen.trace rng r.2) = Some ev
               /\ Gen.failed ev e) in
  (forall e, get_vector "hello" = Raise e -> populate = Raise e)
  /\ (forall hello, get_vector "hello" = Ok hello ->
        exists s, populate = Ok s
          /\ (Embed.found s + Embed.not_found s = length vocab)%nat
          /\ (length (filter (fun w => known w = false) vocab)
              <= Embed.not_found s)%nat
          /\ length (Embed.W s) = VOCAB_SIZE
          /\ (forall (i : nat) (w : string),
                vocab !! i = Some w -> known w = false ->
                (i < VOCAB_SIZE)%nat ->
                Embed.W s !! i = Some (replicate (length hello) 0%R)))
  /\ propagates rg
  /\ propagates rs.
Proof.
  intros rg rs propagates.
  split; [|split; [|split]].
  - intros e He. unfold Embed.populate. now rewrite He.
  - intros hello Hh. unfold Embed.populate. rewrite Hh. simpl.
    destruct (populate_from_never_raises get_vector (length hello) vocab 0
                (Embed.State (Embed.zeros VOCAB_SIZE (length hello)) 0 0))
      as (s & Hp & Hlen & Hsum & Hnf & _ & Hrows).
    simpl in *. exists s. split; [exact Hp|]. split; [lia|]. split; [lia|].
    unfold Embed.zeros in *. rewrite length_replicate in Hlen.
    split; [exact Hlen|].
    intros i w Hi Hunk Hlt. rewrite (Hrows i w Hi Hunk).
    now apply lookup_replicate_2.
  - apply (outcome_propagates model Gen.Scores size start).
    apply (generate_outcome rng word_index0 texts_to_sequences).
  - apply (outcome_propagates model
             (fun out => Gen.Probs (Tensor.rescale lib out T)) size start).
    apply (generate_soft_outcome rng np_random_multinomial lib word_index0
             texts_to_sequences).
Qed.

End PropagationClaims.

(** ** Runs on concrete libraries *)

(** The seed "ab" is encoded as [1; 2]; the tape draws b, a, a and then the
    end-of-sequence token 3. The model is fed the first generated token
    twice from its second call on; the returned string has it once. *)
Example soft_run_example :
  (Demo.soft Demo.ab_index 5 "ab" [2; 1; 1; 3; 2]).1 = Ok "abbaa"
  /\ Gen.model_inputs (Gen.trace _ (Demo.soft Demo.ab_index 5 "ab" [2; 1; 1; 3; 2]).2)
     = [[1; 2]; [1; 2; 2; 2]; [1; 2; 2; 2; 1]; [1; 2; 2; 2; 1; 1]]
  /\ Gen.picks (Gen.trace _ (Demo.soft Demo.ab_index 5 "ab" [2; 1; 1; 3; 2]).2)
     = [Ok 2; Ok 1; Ok 1; Ok 3]
  /\ Gen.np_random _ (Demo.soft Demo.ab_index 5 "ab" [2; 1; 1; 3; 2]).2 = [2].
Proof. vm_compute. repeat split. Qed.

Example tf_argmax_peak : Ops.tf_argmax Demo.peak = Ok 2.
Proof.
  unfold Ops.tf_argmax, Ops.argmax, Demo.peak. simpl. unfold Ops.Rltb.
  repeat (destruct (Rlt_dec _ _); try lra; simpl).
  reflexivity.
Qed.

(** One iteration of the greedy loop that appends a token. *)
Lemma generate_loop_appends (rng : Type) (d : Gen.dict)
    (model : Gen.keras_model) (n : nat) (l : Gen.locals) (w : Gen.world rng)
    (out : list R) (nc : Z) :
  Gen.next_out d model (Gen.deref (Gen.store l) (Gen.inp l)) = Ok out ->
  Ops.tf_argmax out = Ok nc ->
  nc <> Gen.eos_token d ->
  Gen.generate_loop rng d model (S n) l w =
  Gen.generate_loop rng d model n
    (Gen.Locals
       (Gen.append (Gen.store l) (Gen.chars l) nc ++
          [Gen.deref (Gen.append (Gen.store l) (Gen.chars l) nc) (Gen.inp l)
             ++ [nc]])
       (length (Gen.append (Gen.store l) (Gen.chars l) nc))
       (Gen.chars l))
    (Gen.World rng (Gen.np_random rng w)
       (Gen.trace rng w ++
          [Gen.EvModel (Gen.deref (Gen.store l) (Gen.inp l)) (Ok out);
           Gen.EvToken (Gen.Scores out) (Ok nc)])).
Proof.
  intros Ho Ha Hne. simpl. unfold Gen.bind, Gen.model_step, Gen.greedy_pick.
  rewrite Ho. simpl. rewrite Ha. simpl.
  apply Z.eqb_neq in Hne. rewrite Hne. simpl. now rewrite <- app_assoc.
Qed.

(** The greedy generator on the seed "a" with a model that always prefers
    token 2 ("b"): the second call of the model sees the first "b" twice. *)
Example greedy_run_example :
  (Demo.greedy Demo.ab_index (Demo.const_model Demo.peak) 2 "a" []).1
  = Ok "abb"
  /\ Gen.model_inputs
       (Gen.trace _
          (Demo.greedy Demo.ab_index (Demo.const_model Demo.peak) 2 "a" []).2)
     = [[1]; [1; 2; 2]].
Proof.
  unfold Demo.greedy, Gen.run, Gen.generate, Gen.bind, Gen.lift.
  change (Gen.encode_seed Demo.ab_index Demo.texts_to_sequences "a")
    with (@Ok (list Z) [1]).
  change (Z.to_nat 2) with 2%nat. cbv beta iota.
  rewrite (generate_loop_appends _ _ _ _ _ _ Demo.peak 2);
    [|reflexivity|exact tf_argmax_peak|discriminate].
  rewrite (generate_loop_appends _ _ _ _ _ _ Demo.peak 2);
    [|reflexivity|exact tf_argmax_peak|discriminate].
  split; vm_compute; reflexivity.
Qed.

(** A model that raises makes the function raise the same exception. *)
Example untrained_model_example :
  (Demo.greedy Demo.ab_index Demo.untrained_model 5 "ab" []).1
  = Raise (LibraryError "model not yet trained").
Proof. vm_compute. reflexivity. Qed.

(** C3, as stated, fails: with the same model, size, seed and temperature,
    two states of the generator give two different strings, and the run
    leaves the generator in another state than it found it. *)
Lemma generate_soft_reads_the_generator :
  (Demo.soft Demo.ab_index 2 "a" [1; 3]).1 = Ok "aa"
  /\ (Demo.soft Demo.ab_index 2 "a" [2; 3]).1 = Ok "ab"
  /\ (Demo.soft Demo.ab_index 2 "a" [1; 3]).1
     <> (Demo.soft Demo.ab_index 2 "a" [2; 3]).1
  /\ Gen.np_random _ (Demo.soft Demo.ab_index 2 "a" [1; 3]).2 <> [1; 3].
Proof. vm_compute. repeat split; discriminate. Qed.

Lemma generate_soft_determined_by_draws_witness :
  (Demo.soft Demo.ab_index 5 "a" [1; 3; 7]).1
  = (Demo.soft Demo.ab_index 5 "a" [1; 3; 8]).1
  /\ Gen.trace _ (Demo.soft Demo.ab_index 5 "a" [1; 3; 7]).2
     = Gen.trace _ (Demo.soft Demo.ab_index 5 "a" [1; 3; 8]).2
  /\ (length (Gen.picks
                 (Gen.trace _ (Demo.soft Demo.ab_index 5 "a" [1; 3; 7]%Z).2))
      <= Z.to_nat 5)%nat.
Proof.
  apply (generate_soft_determined_by_draws (list Z) Demo.tape_multinomial
                Demo.float32_lib Demo.ab_index Demo.texts_to_sequences
           (Demo.uniform_model Demo.ab_index) 5 "a" 1%R
           ([1; 3; 7] : list Z) ([1; 3; 8] : list Z)).
  vm_compute. reflexivity.
Defined.

(** C9, as stated, fails for the decoded string: over a vocabulary with the
    characters of the marker, the seed "<eos>" has no [eos_token] (6) in its
    encoding, and both functions return a string that is the marker. *)
Lemma decoded_string_can_spell_eos :
  Gen.eos_token Demo.markup_index = 6
  /\ Gen.encode_seed Demo.markup_index Demo.texts_to_sequences "<eos>"
     = Ok [4; 1; 2; 3; 5]
  /\ (6 ∉ [4; 1; 2; 3; 5])
  /\ Gen.reverse_map Demo.markup_index !! 6 = Some "<eos>"
  /\ (Demo.soft Demo.markup_index 3 "<eos>" [6]).1 = Ok "<eos>"
  /\ (Demo.greedy Demo.markup_index Demo.untrained_model 0 "<eos>" []).1
     = Ok "<eos>".
Proof.
  split; [reflexivity|]. split; [reflexivity|].
  split.
  { intros Hin.
    repeat (apply elem_of_cons in Hin as [Hin|Hin]; [discriminate|]).
    now apply elem_of_nil in Hin. }
  split; [vm_compute; reflexivity|].
  split; vm_compute; reflexivity.
Qed.

(** C6, as stated, fails: [get_vector] raises [KeyError] for a word that
    Word2Vec does not know, and the cell ends normally, the word counted in
    [not_found]. *)
Lemma populate_swallows_missing_word :
  Demo.tiny_w2v "zzz" = Raise (KeyError "zzz")
  /\ Embed.populate Demo.tiny_w2v ["hello"; "zzz"] 2
     = Ok (Embed.State [[1%R; 2%R]; [0%R; 0%R]] 1 1).
Proof. split; reflexivity. Qed.

(** The padding id 0 and an id beyond the vocabulary are dropped. *)
Example decode_example :
  Gen.decode Demo.ab_index [1; 0; 2; 9; 1] = "aba"
  /\ Gen.decode Demo.ab_index [3] = "<eos>".
Proof. vm_compute. split; reflexivity. Qed.

(** ** The stated properties on the concrete runs *)

Lemma bow_counts_occurrences_witness :
  Bow.to_bow (fun _ => [1; 3; 1; 7]) 4 "hot dog hot day" !! 1%nat
  = Some (INR (Bow.occurrences [1; 3; 1; 7] 1)).
Proof.
  pose proof (bow_counts_occurrences (fun _ => [1; 3; 1; 7]) 4
                "hot dog hot day" []) as H.
  cbv zeta in H. destruct H as [(_ & H & _) _]. apply H. lia.
Defined.



Lemma aliased_seed_repeats_first_token_witness :
  Gen.model_inputs
    (Gen.trace _ (Demo.soft Demo.ab_index 5 "ab" [2; 1; 1; 3; 2]).2) !! 2%nat
  = Some [1; 2; 2; 2; 1]
  /\ [1; 2; 2; 2; 1] = [1; 2] ++ [2; 2] ++ take 1 [1; 1].
Proof.
  pose proof (aliased_seed_repeats_first_token (list Z) Demo.tape_multinomial
                Demo.float32_lib Demo.ab_index Demo.texts_to_sequences
                (Demo.uniform_model Demo.ab_index) 5 "ab" 1%R
                ([2; 1; 1; 3; 2] : list Z)) as H.
  cbv zeta in H.
  change (Gen.encode_seed Demo.ab_index Demo.texts_to_sequences "ab")
    with (@Ok (list Z) [1; 2]) in H.
  destruct H as [_ ([_ H] & _)].
  assert (Hi : Gen.model_inputs
                 (Gen.trace _ (Demo.soft Demo.ab_index 5 "ab" [2; 1; 1; 3; 2]).2)
               !! 2%nat = Some [1; 2; 2; 2; 1])
    by (vm_compute; reflexivity).
  split; [exact Hi|].
  apply (H 1%nat 2 [1; 1] [1; 2; 2; 2; 1]); [vm_compute; reflexivity|exact Hi].
Defined.

Lemma eos_token_never_appended_witness :
  exists l',
    (Gen.generate_soft_loop (list Z) Demo.tape_multinomial Demo.float32_lib
       Demo.ab_index (Demo.uniform_model Demo.ab_index) 1%R (Z.to_nat 5)
       (Gen.Locals [[1; 2]] 0 0) (Gen.World (list Z) [2; 1; 1; 3; 2] [])).1
    = Ok l'
    /\ "abbaa" = Gen.decode Demo.ab_index
                   (Gen.deref (Gen.store l') (Gen.chars l'))
    /\ (Gen.eos_token Demo.ab_index
          ∉ Gen.deref (Gen.store l') (Gen.chars l'))
    /\ Gen.decode Demo.ab_index (Gen.deref (Gen.store l') (Gen.chars l'))
       = Gen.decode_with
           (delete (Gen.eos_token Demo.ab_index) (Gen.reverse_map Demo.ab_index))
           (Gen.deref (Gen.store l') (Gen.chars l')).
Proof.
  pose proof (eos_token_never_appended (list Z) Demo.tape_multinomial
                Demo.float32_lib Demo.ab_index Demo.texts_to_sequences
                (Demo.uniform_model Demo.ab_index) 5 "ab" 1%R
                ([2; 1; 1; 3; 2] : list Z)) as H.
  cbv zeta in H.
  change (Gen.encode_seed Demo.ab_index Demo.texts_to_sequences "ab")
    with (@Ok (list Z) [1; 2]) in H. cbv beta iota in H.
  destruct H as [_ H].
  destruct (H "abbaa") as (l' & Hl & Hs & gs & Hc & Hgs & Hseed);
    [vm_compute; reflexivity|].
  exists l'. split; [exact Hl|]. split; [exact Hs|].
  apply Hseed. intros Hin.
  repeat (apply elem_of_cons in Hin as [Hin|Hin]; [discriminate|]).
  now apply elem_of_nil in Hin.
Defined.

Lemma decode_drops_unknown_ids_witness :
  Gen.reverse_map Demo.ab_index !! 0 = None
  /\ Gen.decode Demo.ab_index (0 :: [1; 0; 2]) = Gen.decode Demo.ab_index [1; 0; 2].
Proof.
  pose proof (decode_drops_unknown_ids Demo.ab_index [1; 0; 2] [9; 1]) as H.
  destruct H as (_ & _ & _ & _ & H). apply H.
  repeat constructor; simpl; lia.
Defined.

Lemma exceptions_propagate_except_in_populate_witness :
  exists s, Embed.populate Demo.tiny_w2v ["hello"; "zzz"] 2 = Ok s
    /\ (Embed.found s + Embed.not_found s = 2)%nat
    /\ (1 <= Embed.not_found s)%nat
    /\ length (Embed.W s) = 2%nat
    /\ Embed.W s !! 1%nat = Some [0%R; 0%R].
Proof.
  pose proof (exceptions_propagate_except_in_populate (list Z)
                Demo.tape_multinomial Demo.float32_lib Demo.ab_index
                Demo.texts_to_sequences Demo.tiny_w2v ["hello"; "zzz"] 2
                Demo.untrained_model 1 "a" 1%R ([] : list Z)) as H.
  cbv zeta in H. destruct H as (_ & H & _).
  destruct (H [1%R; 2%R] eq_refl) as (s & Hp & Hsum & Hnf & Hlen & Hrow).
  exists s. split; [exact Hp|]. split; [exact Hsum|]. split; [exact Hnf|].
  split; [exact Hlen|]. apply (Hrow 1%nat "zzz"); [reflexivity|reflexivity|lia].
Defined.

(** ** More on the temperature rescaling *)

Lemma np_sum_squeezed (lo hi : R) (qs ps : list R) :
  Forall2 (fun q i => (lo * i <= q <= hi * i)%R) qs ps ->
  (lo * Tensor.np_sum ps <= Tensor.np_sum qs <= hi * Tensor.np_sum ps)%R.
Proof.
  unfold Tensor.np_sum.
  induction 1 as [|q i qs ps Hq _ IH]; simpl; [lra|].
  rewrite !Rmult_plus_distr_l. lra.
Qed.

(** X1: the vector handed to the sampler is a probability vector up to
    rounding: for a non-empty positive output and [T > 0], when every
    library operation is accurate to [eps] ([eps_sum] for the sum) at the
    operands it meets, [probs] has one entry per token, its entries are
    positive finite floats, and their sum lies between [lower] and
    [upper]. *)
Theorem rescale_probability_vector (L : Float.lib) (eps eps_sum A : R)
    (out : list R) (T : R) :
  out <> [] -> Forall (fun p => (0 < p)%R) out -> (0 < T)%R ->
  (0 <= eps < 1)%R -> (0 <= eps_sum < 1)%R ->
  Forall (fun p => (Rabs (ln p / T) <= A)%R) out ->
  Tensor.accurate L eps eps_sum out T ->
  exists probs,
    Tensor.rescale L out T = map Float.Fin probs
    /\ length probs = length out
    /\ Forall (fun q => (0 < q)%R) probs
    /\ (Tensor.lower eps eps_sum A <= Tensor.np_sum probs
        <= Tensor.upper eps eps_sum A)%R.
Proof.
  intros Hne Hpos HT Heps Hsum HA Hacc.
  assert (HT0 : (T <> 0)%R) by lra.
  destruct (rescale_error_bound L eps eps_sum A T out Heps Hsum HT0 HA Hacc)
    as (probs & Hres & Hall).
  destruct (bounds_positive eps eps_sum A Heps Hsum) as [Hlo Hhi].
  exists probs. split; [exact Hres|]. split; [|split].
  - apply Forall2_length in Hall. rewrite Hall.
    unfold Tensor.normalized_powers. apply length_map.
  - apply (Forall2_Forall_l _ _ _ _ Hall).
    eapply Forall_impl; [apply normalized_powers_positive|].
    intros i Hi q Hq. simpl in Hq.
    apply Rlt_le_trans with (Tensor.lower eps eps_sum A * i)%R; [|lra].
    now apply Rmult_lt_0_compat.
  - pose proof (np_sum_squeezed _ _ _ _ Hall) as Hs.
    rewrite (normalized_powers_sum out T Hne) in Hs. lra.
Qed.

Lemma rescale_probability_vector_witness :
  exists probs,
    Tensor.rescale Demo.real_lib [(1/4)%R; (3/4)%R] 2 = map Float.Fin probs
    /\ length probs = 2%nat
    /\ Forall (fun q => (0 < q)%R) probs
    /\ (Tensor.lower (1/1000000) (1/1000000) 2 <= Tensor.np_sum probs
        <= Tensor.upper (1/1000000) (1/1000000) 2)%R.
Proof.
  apply (rescale_probability_vector Demo.real_lib
           (1/1000000) (1/1000000) 2 [(1/4)%R; (3/4)%R] 2).
  - discriminate.
  - repeat constructor; lra.
  - lra.
  - lra.
  - lra.
  - apply Forall_cons_2; [|apply Forall_cons_2; [|apply Forall_nil_2]].
    + pose proof (ln_of_fraction (1/4)) as H.
      unfold Rdiv at 1. rewrite Rabs_mult, (Rabs_pos_eq (/ 2)) by lra.
      assert (Rabs (ln (1/4)) <= 1 / (1/4) - 1)%R by (apply H; lra).
      replace (1 / (1/4) - 1)%R with 3%R in * by field. lra.
    + pose proof (ln_of_fraction (3/4)) as H.
      unfold Rdiv at 1. rewrite Rabs_mult, (Rabs_pos_eq (/ 2)) by lra.
      assert (Rabs (ln (3/4)) <= 1 / (3/4) - 1)%R by (apply H; lra).
      replace (1 / (3/4) - 1)%R with (1/3)%R in * by field. lra.
  - apply real_lib_accurate; lra.
Defined.

(** ** More on the bag of words *)

Lemma counts_app (a b : list Z) (depth : nat) :
  Bow.counts (a ++ b) depth
  = zip_with Rplus (Bow.counts a depth) (Bow.counts b depth).
Proof.
  unfold Bow.counts. rewrite zip_with_map_same. apply List.map_ext.
  intros j. unfold Bow.occurrences. now rewrite count_occ_app, plus_INR.
Qed.

Lemma counts_permutation (a b : list Z) (depth : nat) :
  a ≡ₚ b -> Bow.counts a depth = Bow.counts b depth.
Proof.
  intros Hp. unfold Bow.counts, Bow.occurrences. apply List.map_ext.
  intros j. f_equal. revert Hp. generalize (Z.of_nat j).
  intros x Hp. now apply (proj1 (Permutation_count_occ Z.eq_dec a b)).
Qed.

Lemma call_rows (V : nat) (inp : list (list Z)) :
  Bow.call (Bow.mkBOWLayer V) inp = map (fun row => Bow.counts row V) inp.
Proof.
  unfold Bow.call, Bow.reduce_sum_axis1, Bow.one_hot_batch. simpl.
  rewrite List.map_map. apply List.map_ext. intros row.
  apply reduce_sum_one_hot_counts.
Qed.

(** X5: the bag of words ignores the order of the tokens: two texts whose
    token sequences are permutations of each other have the same vector, and
    so have two batches whose rows are permutations of each other. *)
Theorem bow_order_irrelevant (vectorizer : string -> list Z) (vocab_size : nat)
    (text1 text2 : string) (inp1 inp2 : list (list Z)) :
  vectorizer text1 ≡ₚ vectorizer text2 ->
  Forall2 Permutation inp1 inp2 ->
  Bow.to_bow vectorizer vocab_size text1 = Bow.to_bow vectorizer vocab_size text2
  /\ Bow.call (Bow.mkBOWLayer vocab_size) inp1
     = Bow.call (Bow.mkBOWLayer vocab_size) inp2.
Proof.
  intros Hp Hrows. split.
  - unfold Bow.to_bow. rewrite !reduce_sum_one_hot_counts.
    now apply counts_permutation.
  - rewrite !call_rows. induction Hrows as [|r1 r2 l1 l2 Hr _ IH];
      [reflexivity|].
    simpl. rewrite IH. f_equal. now apply counts_permutation.
Qed.

Lemma bow_order_irrelevant_witness :
  Bow.to_bow (fun t => if String.eqb t "hot dog" then [5; 2] else [2; 5]) 7
    "hot dog"
  = Bow.to_bow (fun t => if String.eqb t "hot dog" then [5; 2] else [2; 5]) 7
      "dog hot"
  /\ Bow.call (Bow.mkBOWLayer 7) [[1; 2; 0]; [3; 3; 4]]
     = Bow.call (Bow.mkBOWLayer 7) [[0; 2; 1]; [3; 4; 3]].
Proof.
  apply bow_order_irrelevant.
  - simpl. apply perm_swap.
  - constructor; [apply (Permutation_rev [1; 2; 0])|].
    constructor; [apply perm_skip, perm_swap|].
    constructor.
Defined.

(** X6: the bag of words of a concatenation is the sum of the bags of
    words. *)
Theorem bow_additive (vocab_size : nat) (a b : list Z) :
  Bow.call (Bow.mkBOWLayer vocab_size) [a ++ b]
  = zip_with (zip_with Rplus)
      (Bow.call (Bow.mkBOWLayer vocab_size) [a])
      (Bow.call (Bow.mkBOWLayer vocab_size) [b]).
Proof. rewrite !call_rows. simpl. now rewrite counts_app. Qed.

Lemma np_sum_zip_plus (a b : list R) :
  length a = length b ->
  Tensor.np_sum (zip_with Rplus a b) = (Tensor.np_sum a + Tensor.np_sum b)%R.
Proof.
  unfold Tensor.np_sum. revert b.
  induction a as [|x a IH]; intros [|y b] Hlen; simpl in *; try lia; [lra|].
  rewrite IH by lia. lra.
Qed.

Lemma np_sum_indicator (i : Z) (n s : nat) :
  Tensor.np_sum
    (map (fun j : nat => if Z.eqb i (Z.of_nat j) then 1%R else 0%R) (seq s n))
  = if (Z.leb (Z.of_nat s) i && Z.ltb i (Z.of_nat (s + n)))%bool
    then 1%R else 0%R.
Proof.
  unfold Tensor.np_sum. revert s. induction n as [|n IH]; intros s; simpl.
  - destruct (Z.leb_spec (Z.of_nat s) i), (Z.ltb_spec i (Z.of_nat (s + 0)));
      simpl; try reflexivity; lia.
  - rewrite IH.
    destruct (Z.eqb_spec i (Z.of_nat s)) as [->|Hne].
    + destruct (Z.leb_spec (Z.of_nat (S s)) (Z.of_nat s)); [lia|].
      destruct (Z.leb_spec (Z.of_nat s) (Z.of_nat s)); [|lia].
      destruct (Z.ltb_spec (Z.of_nat s) (Z.of_nat (s + S n))); [|lia].
      simpl. lra.
    + destruct (Z.leb_spec (Z.of_nat (S s)) i),
               (Z.leb_spec (Z.of_nat s) i),
               (Z.ltb_spec i (Z.of_nat (S s + n))),
               (Z.ltb_spec i (Z.of_nat (s + S n)));
        simpl; try lra; lia.
Qed.

Lemma np_sum_one_hot_row (i : Z) (depth : nat) :
  Tensor.np_sum (Bow.one_hot_row i depth)
  = if Bow.in_range depth i then 1%R else 0%R.
Proof. unfold Bow.one_hot_row, Bow.in_range. apply np_sum_indicator. Qed.

Lemma length_reduce_sum_one_hot (ids : list Z) (depth : nat) :
  length (Bow.reduce_sum_axis0 depth (Bow.one_hot ids depth)) = depth.
Proof.
  rewrite reduce_sum_one_hot_counts. unfold Bow.counts.
  now rewrite List.length_map, length_seq.
Qed.

(** X7: every token id in [0, vocab_size) adds exactly 1 to the vector, and
    any other id adds nothing: the components of [to_bow] sum to the number
    of in-range ids of the vectorized text. *)
Theorem bow_total_mass (vectorizer : string -> list Z) (vocab_size : nat)
    (text : string) :
  Tensor.np_sum (Bow.to_bow vectorizer vocab_size text)
  = INR (length (filter (fun i => Is_true (Bow.in_range vocab_size i))
                   (vectorizer text))).
Proof.
  unfold Bow.to_bow. generalize (vectorizer text). intros ids.
  induction ids as [|i ids IH].
  - simpl. unfold Tensor.np_sum.
    induction vocab_size as [|n IHn]; simpl; [reflexivity|]. rewrite IHn. lra.
  - change (Bow.reduce_sum_axis0 vocab_size (Bow.one_hot (i :: ids) vocab_size))
      with (zip_with Rplus (Bow.one_hot_row i vocab_size)
              (Bow.reduce_sum_axis0 vocab_size (Bow.one_hot ids vocab_size))).
    rewrite np_sum_zip_plus.
    2:{ rewrite length_reduce_sum_one_hot. unfold Bow.one_hot_row.
        now rewrite List.length_map, length_seq. }
    rewrite IH, np_sum_one_hot_row, filter_cons.
    destruct (Bow.in_range vocab_size i) eqn:Hin.
    + rewrite decide_True by exact I. simpl length. rewrite S_INR. lra.
    + rewrite decide_False by (intros []). lra.
Qed.

Lemma occurrences_of_padding (k j : nat) :
  Bow.occurrences (replicate k 0) j = match j with O => k | S _ => O end.
Proof.
  unfold Bow.occurrences. induction k as [|k IH]; [now destruct j|].
  change (replicate (S k) 0) with (0 :: replicate k 0).
  destruct j as [|j].
  - rewrite count_occ_cons_eq by reflexivity. now rewrite IH.
  - rewrite count_occ_cons_neq by lia. exact IH.
Qed.

Lemma counts_of_padding (k v : nat) :
  Bow.counts (replicate k 0) (S v) = INR k :: replicate v 0%R.
Proof.
  unfold Bow.counts. simpl. rewrite occurrences_of_padding. f_equal.
  assert (H : forall s, map (fun j => INR (Bow.occurrences (replicate k 0) j))
                          (seq (S s) v) = replicate v 0%R).
  { induction v as [|v IHv]; intros s; simpl; [reflexivity|].
    rewrite IHv. now rewrite occurrences_of_padding. }
  apply (H 0%nat).
Qed.

(** X8: padding a row with [k] zeros, as the vectorizer does inside a
    batch, adds [k] to component 0 of the row's vector and changes no other
    component. *)
Theorem bow_padding_counts_as_token_zero (v : nat) (ids : list Z) (k : nat) :
  Bow.call (Bow.mkBOWLayer (S v)) [ids ++ replicate k 0]
  = zip_with (zip_with Rplus)
      (Bow.call (Bow.mkBOWLayer (S v)) [ids])
      [INR k :: replicate v 0%R].
Proof.
  rewrite !call_rows. simpl. now rewrite counts_app, counts_of_padding.
Qed.

Example bow_padding_example :
  Bow.call (Bow.mkBOWLayer 3) [[2; 1; 2] ++ replicate 2 0]
  = [[2%R; 1%R; 2%R]].
Proof.
  unfold Bow.call, Bow.reduce_sum_axis1, Bow.reduce_sum_axis0,
    Bow.one_hot_batch, Bow.one_hot, Bow.one_hot_row. simpl.
  repeat (f_equal; try lra).
Qed.

(** ** The vocabulary tables: [word_index], [reverse_map], [vocab_size] *)

Lemma dict_set_fresh (d : Gen.dict) (k : string) (v : Z) :
  k ∉ d.*1 -> Gen.dict_set d k v = d ++ [(k, v)].
Proof.
  induction d as [|[k' v'] d IH]; intros Hk; [reflexivity|].
  simpl in *. apply not_elem_of_cons in Hk as [Hne Hk].
  destruct (String.eqb_spec k' k) as [->|_]; [done|].
  now rewrite IH.
Qed.

Lemma reverse_fold_lookup_other (d : Gen.dict) (m : gmap Z string) (t : Z) :
  t ∉ d.*2 ->
  foldl (fun m kv => <[kv.2 := kv.1]> m) m d !! t = m !! t.
Proof.
  revert m. induction d as [|[k v] d IH]; intros m Hd; [reflexivity|].
  simpl in *. apply not_elem_of_cons in Hd as [Hne Hd].
  rewrite IH by exact Hd. now rewrite lookup_insert_ne by congruence.
Qed.

Lemma reverse_fold_lookup_item (d : Gen.dict) (m : gmap Z string)
    (k : string) (v : Z) :
  NoDup d.*2 -> (k, v) ∈ d ->
  foldl (fun m kv => <[kv.2 := kv.1]> m) m d !! v = Some k.
Proof.
  revert m. induction d as [|[k' v'] d IH]; intros m Hnd Hin.
  - now apply elem_of_nil in Hin.
  - simpl in *. apply NoDup_cons in Hnd as [Hv' Hnd].
    apply elem_of_cons in Hin as [[= -> ->]|Hin].
    + rewrite reverse_fold_lookup_other by exact Hv'.
      apply lookup_insert_eq.
    + now apply IH.
Qed.

Lemma reverse_fold_lookup_Some (d : Gen.dict) (m : gmap Z string)
    (k : string) (t : Z) :
  foldl (fun m kv => <[kv.2 := kv.1]> m) m d !! t = Some k ->
  m !! t = Some k \/ (k, t) ∈ d.
Proof.
  revert m. induction d as [|[k' v'] d IH]; intros m Hl; [now left|].
  simpl in Hl. destruct (IH _ Hl) as [Hm|Hin].
  - destruct (decide (v' = t)) as [->|Hne].
    + rewrite lookup_insert_eq in Hm. injection Hm as ->.
      right. apply list_elem_of_here.
    + rewrite lookup_insert_ne in Hm by exact Hne. now left.
  - right. now apply list_elem_of_further.
Qed.

Section VocabularyFacts.
Variable word_index0 : Gen.dict.

Local Abbreviation eos := (Gen.eos_token word_index0).
Local Abbreviation word_index := (Gen.word_index word_index0).
Local Abbreviation reverse_map := (Gen.reverse_map word_index0).
Local Abbreviation decode := (Gen.decode word_index0).
Local Abbreviation vocab_size := (Gen.vocab_size word_index0).

Local Abbreviation well_numbered := (Vocab.well_numbered word_index0).

Lemma eos_token_fresh : well_numbered -> eos ∉ word_index0.*2.
Proof.
  intros (_ & _ & Hle) Hin. simpl in Hle.
  apply list_elem_of_fmap in Hin as ([k v] & Hv & Hin).
  rewrite Forall_forall in Hle. specialize (Hle _ Hin).
  unfold Gen.eos_token in Hv. simpl in *. lia.
Qed.

Lemma word_index_appends_marker :
  well_numbered -> word_index = word_index0 ++ [("<eos>", eos)].
Proof. intros (Hk & _). unfold Gen.word_index. now apply dict_set_fresh. Qed.

Lemma word_index_values_distinct : well_numbered -> NoDup word_index.*2.
Proof.
  intros Hwn. rewrite (word_index_appends_marker Hwn).
  rewrite fmap_app. simpl. apply NoDup_app. split; [apply Hwn|]. split.
  - intros t Ht Ht'. apply list_elem_of_singleton in Ht'. subst t.
    now apply (eos_token_fresh Hwn).
  - apply NoDup_singleton.
Qed.

Lemma reverse_map_item (k : string) (v : Z) :
  well_numbered -> (k, v) ∈ word_index -> reverse_map !! v = Some k.
Proof.
  intros Hwn Hin. unfold Gen.reverse_map.
  apply reverse_fold_lookup_item; [|exact Hin].
  now apply word_index_values_distinct.
Qed.

(** X9: [reverse_map] inverts [word_index]: for a table that is numbered as
    the tokenizer numbers it, looking up the index of a key gives the key
    back, the index [eos_token] gives the marker, and [reverse_map] has no
    other entries. *)
Theorem reverse_map_inverts_word_index :
  well_numbered ->
  (forall k v, (k, v) ∈ word_index0 -> reverse_map !! v = Some k)
  /\ reverse_map !! eos = Some "<eos>"
  /\ (forall t k, reverse_map !! t = Some k -> (k, t) ∈ word_index)
  /\ word_index = word_index0 ++ [("<eos>", eos)].
Proof.
  intros Hwn. pose proof (word_index_appends_marker Hwn) as Hwi.
  split; [|split; [|split]].
  - intros k v Hin. apply (reverse_map_item k v Hwn).
    rewrite Hwi. apply elem_of_app. now left.
  - apply (reverse_map_item "<eos>" eos Hwn).
    rewrite Hwi. apply elem_of_app. right. apply list_elem_of_here.
  - intros t k Hl. unfold Gen.reverse_map in Hl.
    apply reverse_fold_lookup_Some in Hl as [Hm|Hin]; [|exact Hin].
    now rewrite lookup_empty in Hm.
  - exact Hwi.
Qed.

Lemma decode_keys (ks : list string) (toks : list Z) :
  Forall2 (fun k t => reverse_map !! t = Some k) ks toks ->
  decode toks = String.concat "" ks.
Proof.
  intros Hall. induction Hall as [|k t ks toks Hkt _ IH]; [reflexivity|].
  change (t :: toks) with ([t] ++ toks). rewrite decode_app, IH, join_cons.
  f_equal. unfold Gen.decode. simpl. now rewrite Hkt.
Qed.

(** X10: decoding undoes encoding: when every token of [toks] is the index
    that [word_index] gives to the key at the same position of [ks], then
    [decode toks] is the concatenation of the keys. *)
Theorem decode_round_trip (ks : list string) (toks : list Z) :
  well_numbered ->
  Forall2 (fun k t => (k, t) ∈ word_index) ks toks ->
  decode toks = String.concat "" ks.
Proof.
  intros Hwn Hall. apply decode_keys.
  induction Hall as [|k t ks toks Hkt _ IH]; constructor; [|exact IH].
  now apply reverse_map_item.
Qed.

Lemma indicator_zeros (i : Z) (m : nat) :
  forall s : nat,
    (forall j : nat, (s <= j < s + m)%nat -> i <> Z.of_nat j) ->
    map (fun j : nat => if Z.eqb i (Z.of_nat j) then 1%R else 0%R) (seq s m)
    = replicate m 0%R.
Proof.
  induction m as [|m IH]; intros s Hne; [reflexivity|].
  simpl. rewrite IH by (intros j Hj; apply Hne; lia).
  assert (Hs : i <> Z.of_nat s) by (apply Hne; lia).
  apply Z.eqb_neq in Hs. now rewrite Hs.
Qed.

Lemma one_hot_row_unit (t : nat) (depth : nat) :
  (t < depth)%nat ->
  Bow.one_hot_row (Z.of_nat t) depth
  = replicate t 0%R ++ 1%R :: replicate (depth - S t) 0%R.
Proof.
  intros Ht. unfold Bow.one_hot_row.
  replace depth with (t + S (depth - S t))%nat at 1 by lia.
  rewrite seq_app, List.map_app. simpl.
  rewrite Z.eqb_refl.
  rewrite !indicator_zeros by (intros j Hj; lia). reflexivity.
Qed.

Lemma one_hot_row_zero (i : Z) (depth : nat) :
  (i < 0 \/ Z.of_nat depth <= i) ->
  Bow.one_hot_row i depth = replicate depth 0%R.
Proof.
  intros Hi. unfold Bow.one_hot_row. apply indicator_zeros. intros j Hj. lia.
Qed.

(** X11: [vocab_size = eos_token + 1] makes every id from the padding id 0
    to [eos_token] a valid one-hot index: [tf.one_hot(., vocab_size)]
    encodes id [t] as the unit vector with its 1 at position [t], so padding
    is the first unit vector (not the zero vector) and the marker is the
    last one; ids outside [0, vocab_size) are encoded as the zero vector, as
    the marker itself would be with a depth of only [eos_token]. *)
Theorem one_hot_of_vocabulary_ids :
  let V := Z.to_nat vocab_size in
  let n := length word_index0 in
  V = S (S n)
  /\ Bow.one_hot_row 0 V = 1%R :: replicate (S n) 0%R
  /\ Bow.one_hot_row eos V = replicate (S n) 0%R ++ [1%R]
  /\ (forall t : nat, (t < V)%nat ->
        Bow.one_hot_row (Z.of_nat t) V
        = replicate t 0%R ++ 1%R :: replicate (V - S t) 0%R)
  /\ (forall i : Z, (i < 0 \/ vocab_size <= i) ->
        Bow.one_hot_row i V = replicate V 0%R)
  /\ Bow.one_hot_row eos (Z.to_nat eos) = replicate (Z.to_nat eos) 0%R.
Proof.
  intros V n.
  assert (HV : V = S (S n)).
  { subst V n. unfold Gen.vocab_size, Gen.eos_token. lia. }
  assert (Heos : eos = Z.of_nat (S n)).
  { subst n. unfold Gen.eos_token. lia. }
  split; [exact HV|]. split; [|split; [|split; [|split]]].
  - rewrite HV. apply (one_hot_row_unit 0 (S (S n))). lia.
  - rewrite HV, Heos. rewrite (one_hot_row_unit (S n) (S (S n))) by lia.
    now replace (S (S n) - S (S n))%nat with 0%nat by lia.
  - intros t Ht. now apply one_hot_row_unit.
  - intros i Hi. apply one_hot_row_zero.
    subst V. unfold Gen.vocab_size, Gen.eos_token in *. lia.
  - apply one_hot_row_zero. right. rewrite Heos. lia.
Qed.

End VocabularyFacts.

Lemma ab_index_well_numbered : Vocab.well_numbered Demo.ab_index.
Proof.
  split; [|split].
  - intros Hin.
    repeat (apply elem_of_cons in Hin as [Hin|Hin]; [discriminate|]).
    now apply elem_of_nil in Hin.
  - simpl. apply NoDup_cons. split.
    + intros Hin. apply list_elem_of_singleton in Hin. discriminate.
    + apply NoDup_singleton.
  - repeat constructor; simpl; lia.
Qed.

Lemma reverse_map_inverts_word_index_witness :
  (forall k v, (k, v) ∈ Demo.ab_index ->
     Gen.reverse_map Demo.ab_index !! v = Some k)
  /\ Gen.reverse_map Demo.ab_index !! Gen.eos_token Demo.ab_index
     = Some "<eos>"
  /\ (forall t k, Gen.reverse_map Demo.ab_index !! t = Some k ->
        (k, t) ∈ Gen.word_index Demo.ab_index)
  /\ Gen.word_index Demo.ab_index
     = Demo.ab_index ++ [("<eos>", Gen.eos_token Demo.ab_index)].
Proof.
  exact (reverse_map_inverts_word_index Demo.ab_index ab_index_well_numbered).
Defined.

Lemma decode_round_trip_witness :
  Gen.decode Demo.ab_index [2; 1; 1; 3] = String.concat "" ["b"; "a"; "a"; "<eos>"].
Proof.
  apply (decode_round_trip Demo.ab_index ["b"; "a"; "a"; "<eos>"] [2; 1; 1; 3]
           ab_index_well_numbered).
  repeat constructor; vm_compute;
    repeat (first [apply list_elem_of_here | apply list_elem_of_further]).
Defined.

(** ** Training batches *)

Lemma shifted_columns (z : list (list Z)) (v : Z) :
  Batch.concat_axis1 (Batch.drop_first_column z)
    (Batch.constant_column v (length z))
  = map (fun row => drop 1 row ++ [v]) z.
Proof.
  unfold Batch.concat_axis1, Batch.drop_first_column, Batch.constant_column.
  induction z as [|row z IH]; [reflexivity|]. simpl. now rewrite IH.
Qed.

Lemma one_hot_lookup (ids : list Z) (depth k : nat) :
  Bow.one_hot ids depth !! k = (fun i => Bow.one_hot_row i depth) <$> ids !! k.
Proof. unfold Bow.one_hot. apply list_lookup_fmap. Qed.

Section TitleBatchFacts.
Variable word_index0 : Gen.dict.
Variable texts_to_sequences : Gen.dict -> list string -> list (list Z).
Variable pad_sequences : list (list Z) -> result (list (list Z)).

Local Abbreviation eos := (Gen.eos_token word_index0).
Local Abbreviation V := (Z.to_nat (Gen.vocab_size word_index0)).
Local Abbreviation padded :=
  (Batch.padded word_index0 texts_to_sequences pad_sequences).
Local Abbreviation title_batch :=
  (Batch.title_batch word_index0 texts_to_sequences pad_sequences).

Lemma title_batch_rows (x : list string) (z : list (list Z)) :
  padded x = Ok z ->
  title_batch x
  = Ok (map (fun row => Bow.one_hot row V) z,
        map (fun row => Bow.one_hot (drop 1 row ++ [eos]) V) z).
Proof.
  intros Hz. unfold Batch.title_batch. rewrite Hz. simpl.
  rewrite shifted_columns. unfold Bow.one_hot_batch.
  now rewrite List.map_map.
Qed.

(** X12: the target tensor of [title_batch] is the input shifted by one
    character and ended by the marker: for every padded title, the target
    row encodes the title without its first token followed by [eos_token];
    time step [k] of the target is time step [k+1] of the input, and the
    last time step of the target is the one-hot vector of [eos_token]. An
    exception of [pad_sequences] is passed on. *)
Theorem title_batch_targets_shifted (x : list string) :
  match padded x with
  | Raise e => title_batch x = Raise e
  | Ok z =>
      exists inputs targets,
        title_batch x = Ok (inputs, targets)
        /\ length inputs = length z
        /\ length targets = length z
        /\ forall (b : nat) (row : list Z), z !! b = Some row ->
             exists i t,
               inputs !! b = Some i /\ targets !! b = Some t
               /\ i = Bow.one_hot row V
               /\ t = Bow.one_hot (drop 1 row ++ [eos]) V
               /\ (forall (k : nat) (v : list R),
                     i !! S k = Some v -> t !! k = Some v)
               /\ last t = Some (Bow.one_hot_row eos V)
  end.
Proof.
  destruct (padded x) as [z|e] eqn:Hz.
  - rewrite (title_batch_rows x z Hz).
    eexists _, _. split; [reflexivity|].
    split; [now rewrite List.length_map|].
    split; [now rewrite List.length_map|].
    intros b row Hrow. eexists _, _.
    change (map ?f ?l) with (f <$> l).
    rewrite !list_lookup_fmap, Hrow. simpl.
    split; [reflexivity|]. split; [reflexivity|].
    split; [reflexivity|]. split; [reflexivity|]. split.
    + intros k v. rewrite !one_hot_lookup.
      destruct row as [|c row]; [discriminate|]. simpl.
      intros Hk. rewrite lookup_app_l; [exact Hk|].
      destruct (row !! k) eqn:E; [|discriminate].
      now apply lookup_lt_Some in E.
    + unfold Bow.one_hot. rewrite List.map_app. simpl.
      apply last_snoc.
  - unfold Batch.title_batch. now rewrite Hz.
Qed.

(** X13: when [pad_sequences] returns rows of [m] tokens, the input tensor
    has [m] time steps and the target tensor has [max m 1]: they agree
    unless every title of the batch is encoded as the empty sequence, in
    which case the input has no time step and the target has one. Every
    time step is a vector of [vocab_size] entries. *)
Theorem title_batch_time_steps (x : list string) (z : list (list Z))
    (m : nat) (inputs targets : list (list (list R))) :
  padded x = Ok z ->
  Forall (fun row => length row = m) z ->
  title_batch x = Ok (inputs, targets) ->
  Forall (fun i => length i = m) inputs
  /\ Forall (fun t => length t = max m 1) targets
  /\ Forall (Forall (fun v => length v = V)) inputs
  /\ Forall (Forall (fun v => length v = V)) targets.
Proof.
  intros Hz Hm Hb. rewrite (title_batch_rows x z Hz) in Hb.
  injection Hb as <- <-.
  assert (Hrow : forall ids, Forall (fun v => length v = V) (Bow.one_hot ids V)).
  { intros ids. unfold Bow.one_hot, Bow.one_hot_row.
    apply Forall_map, Forall_forall. intros i _. simpl.
    now rewrite List.length_map, length_seq. }
  split; [|split; [|split]].
  - apply Forall_map. eapply Forall_impl; [exact Hm|].
    intros row Hr. cbv beta in *. unfold Bow.one_hot.
    now rewrite List.length_map.
  - apply Forall_map. eapply Forall_impl; [exact Hm|].
    intros row Hr. cbv beta. unfold Bow.one_hot.
    rewrite List.length_map, length_app, length_drop.
    change (length [eos]) with 1%nat. cbv beta in Hr. lia.
  - apply Forall_map, Forall_forall. intros row _. apply Hrow.
  - apply Forall_map, Forall_forall. intros row _. apply Hrow.
Qed.

End TitleBatchFacts.

(** Two titles over the vocabulary a, b: "ab" and "b" are padded to
    [[1; 2]; [0; 2]]; the targets are [[2; 3]; [2; 3]]. *)
Example title_batch_example :
  Batch.padded Demo.ab_index Demo.texts_to_sequences Batch.keras_pad_sequences
    ["ab"; "b"] = Ok [[1; 2]; [0; 2]]
  /\ Batch.title_batch Demo.ab_index Demo.texts_to_sequences
       Batch.keras_pad_sequences ["ab"; "b"]
     = Ok (Bow.one_hot_batch [[1; 2]; [0; 2]] 4,
           Bow.one_hot_batch [[2; 3]; [2; 3]] 4).
Proof. split; reflexivity. Qed.

Lemma title_batch_time_steps_witness :
  Forall (fun i => length i = 0%nat)
    [Bow.one_hot [] 4; Bow.one_hot [] 4]
  /\ Forall (fun t => length t = max 0 1)
       [Bow.one_hot [3] 4; Bow.one_hot [3] 4]
  /\ Forall (Forall (fun v => length v = 4%nat))
       [Bow.one_hot [] 4; Bow.one_hot [] 4]
  /\ Forall (Forall (fun v => length v = 4%nat))
       [Bow.one_hot [3] 4; Bow.one_hot [3] 4].
Proof.
  apply (title_batch_time_steps Demo.ab_index Demo.texts_to_sequences
           Batch.keras_pad_sequences ["c"; ""] [[]; []] 0).
  - reflexivity.
  - repeat constructor.
  - reflexivity.
Defined.

(** ** More on the generators *)

Section GeneratorFacts.
Variable rng : Type.
Variable np_random_multinomial :
  rng -> Z -> list Float.float -> Z -> result (list (list Z)) * rng.
Variable lib : Float.lib.
Variable word_index0 : Gen.dict.
Variable texts_to_sequences : Gen.dict -> list string -> list (list Z).

Local Abbreviation decode := (Gen.decode word_index0).
Local Abbreviation encode_seed :=
  (Gen.encode_seed word_index0 texts_to_sequences).
Local Abbreviation generate :=
  (Gen.generate rng word_index0 texts_to_sequences).
Local Abbreviation generate_soft :=
  (Gen.generate_soft rng np_random_multinomial lib word_index0
     texts_to_sequences).

(** X14: with [size <= 0] the loop body never runs: both functions return
    the decoded seed without calling the model or the sampler; for a table
    numbered as the tokenizer numbers it, that string is the concatenation
    of the keys the seed was encoded from. *)
Theorem nonpositive_size_returns_seed (model : Gen.keras_model) (size : Z)
    (start : string) (T : R) (g : rng) (ks : list string) (seed : list Z) :
  size <= 0 ->
  Vocab.well_numbered word_index0 ->
  encode_seed start = Ok seed ->
  Forall2 (fun k t => (k, t) ∈ Gen.word_index word_index0) ks seed ->
  Gen.run rng (generate model size start) g
    = (Ok (String.concat "" ks), Gen.World rng g [])
  /\ Gen.run rng (generate_soft model size start T) g
     = (Ok (String.concat "" ks), Gen.World rng g []).
Proof.
  intros Hsize Hwn Hseed Hks.
  assert (Hn : Z.to_nat size = 0%nat) by lia.
  unfold Gen.run, Gen.generate, Gen.generate_soft, Gen.bind, Gen.lift, Gen.ret.
  rewrite Hseed, Hn. simpl.
  unfold Gen.deref. simpl.
  rewrite (decode_keys word_index0 ks seed); [split; reflexivity|].
  eapply Forall2_impl; [exact Hks|].
  intros k t Hkt. now apply reverse_map_item.
Qed.

Lemma generate_loop_ignores_generator (model : Gen.keras_model) (n : nat) :
  forall (l : Gen.locals) (g1 g2 : rng) (t : list Gen.event),
    (Gen.generate_loop rng word_index0 model n l (Gen.World rng g1 t)).1
    = (Gen.generate_loop rng word_index0 model n l (Gen.World rng g2 t)).1
    /\ Gen.trace rng
         (Gen.generate_loop rng word_index0 model n l (Gen.World rng g1 t)).2
       = Gen.trace rng
           (Gen.generate_loop rng word_index0 model n l (Gen.World rng g2 t)).2.
Proof.
  induction n as [|n IH]; intros l g1 g2 t; [split; reflexivity|].
  simpl. unfold Gen.bind, Gen.model_step, Gen.greedy_pick. simpl.
  destruct (Gen.next_out _ _ _) as [out|e]; simpl; [|split; reflexivity].
  destruct (Ops.tf_argmax out) as [nc|e]; simpl; [|split; reflexivity].
  destruct (Z.eqb nc _); simpl; [split; reflexivity|].
  apply IH.
Qed.

(** X15: [generate] does not read the random generator: started in any two
    states of the generator it returns the same result and makes the same
    library calls, and it leaves the state as it found it. *)
Theorem generate_ignores_generator (model : Gen.keras_model) (size : Z)
    (start : string) (g1 g2 : rng) :
  let r1 := Gen.run rng (generate model size start) g1 in
  let r2 := Gen.run rng (generate model size start) g2 in
  r1.1 = r2.1
  /\ Gen.trace rng r1.2 = Gen.trace rng r2.2
  /\ Gen.np_random rng r1.2 = g1
  /\ Gen.np_random rng r2.2 = g2.
Proof.
  intros r1 r2. subst r1 r2.
  unfold Gen.run, Gen.generate, Gen.bind, Gen.lift, Gen.ret.
  destruct (encode_seed start) as [seed|e]; [|repeat split].
  pose proof (generate_loop_ignores_generator model (Z.to_nat size)
                (Gen.Locals [seed] 0 0) g1 g2 []) as [Hres Htr].
  pose proof (greedy_loop_keeps_generator rng word_index0 model
                (Z.to_nat size) (Gen.Locals [seed] 0 0)
                (Gen.World rng g1 [])) as Hg1.
  pose proof (greedy_loop_keeps_generator rng word_index0 model
                (Z.to_nat size) (Gen.Locals [seed] 0 0)
                (Gen.World rng g2 [])) as Hg2.
  destruct (Gen.generate_loop rng word_index0 model (Z.to_nat size)
              (Gen.Locals [seed] 0 0) (Gen.World rng g1 [])) as [[l1|e1] w1];
    destruct (Gen.generate_loop rng word_index0 model (Z.to_nat size)
                (Gen.Locals [seed] 0 0) (Gen.World rng g2 [])) as [[l2|e2] w2];
    simpl in *; try discriminate.
  - injection Hres as ->. auto.
  - injection Hres as ->. auto.
Qed.

End GeneratorFacts.

Lemma nonpositive_size_returns_seed_witness :
  Demo.greedy Demo.ab_index Demo.untrained_model (-3) "ab" [7]
    = (Ok (String.concat "" ["a"; "b"]), Gen.World (list Z) [7] [])
  /\ Gen.run (list Z)
       (Gen.generate_soft (list Z) Demo.tape_multinomial Demo.float32_lib
          Demo.ab_index Demo.texts_to_sequences Demo.untrained_model (-3)
          "ab" 1%R) [7]
     = (Ok (String.concat "" ["a"; "b"]), Gen.World (list Z) [7] []).
Proof.
  apply (nonpositive_size_returns_seed (list Z) Demo.tape_multinomial
           Demo.float32_lib Demo.ab_index Demo.texts_to_sequences Demo.untrained_model (-3)
           "ab" 1%R [7] ["a"; "b"] [1; 2]).
  - lia.
  - exact ab_index_well_numbered.
  - reflexivity.
  - repeat constructor; vm_compute;
      repeat (first [apply list_elem_of_here | apply list_elem_of_further]).
Defined.

(** ** More on the population loop *)

Section PopulateExact.
Variable get_vector : string -> result (list R).

Local Abbreviation known := (Embed.known get_vector).
Local Abbreviation body := (Embed.body get_vector).
Local Abbreviation populate_from := (Embed.populate_from get_vector).
Local Abbreviation written := (Fill.written get_vector).
Local Abbreviation hits := (Fill.hits get_vector).

Lemma body_exact (cols : nat) (s : Embed.state) (i : nat) (w : string) :
  body cols s i w
  = Ok (match written cols (length (Embed.W s)) i w with
        | Some r => Embed.State (<[i := r]> (Embed.W s))
                      (Embed.found s + 1) (Embed.not_found s)
        | None => Embed.State (Embed.W s)
                    (Embed.found s) (Embed.not_found s + 1)
        end).
Proof.
  unfold Embed.body, Embed.try_block, Embed.set_row, Fill.written.
  destruct (get_vector w) as [v|e]; simpl; [|reflexivity].
  destruct (decide (i < length (Embed.W s))%nat); simpl; [|reflexivity].
  destruct (decide (length v = cols)); simpl; [reflexivity|].
  now destruct v as [|x [|y v]].
Qed.

Lemma hits_bound (cols rows : nat) (ws : list string) :
  forall i : nat, (hits cols rows i ws <= length ws)%nat.
Proof.
  induction ws as [|w ws IH]; intros i; simpl; [lia|].
  specialize (IH (S i)). destruct (written cols rows i w); lia.
Qed.

Lemma populate_from_exact (cols : nat) (ws : list string) :
  forall (i : nat) (s : Embed.state),
  exists s', populate_from cols i ws s = Ok s'
    /\ length (Embed.W s') = length (Embed.W s)
    /\ Embed.found s'
       = (Embed.found s + hits cols (length (Embed.W s)) i ws)%nat
    /\ Embed.not_found s'
       = (Embed.not_found s
          + (length ws - hits cols (length (Embed.W s)) i ws))%nat
    /\ (forall j : nat, (j < i)%nat -> Embed.W s' !! j = Embed.W s !! j)
    /\ (forall j : nat, (i + length ws <= j)%nat ->
          Embed.W s' !! j = Embed.W s !! j)
    /\ (forall (k : nat) (w : string), ws !! k = Some w ->
          Embed.W s' !! (i + k)%nat
          = match written cols (length (Embed.W s)) (i + k) w with
            | Some r => Some r
            | None => Embed.W s !! (i + k)%nat
            end).
Proof.
  induction ws as [|w ws IH]; intros i s.
  - exists s. simpl. repeat split; try lia. intros k w Hk. discriminate.
  - pose proof (body_exact cols s i w) as Hb.
    pose proof (hits_bound cols (length (Embed.W s)) ws (S i)) as Hbound.
    set (s1 := match written cols (length (Embed.W s)) i w with
               | Some r => Embed.State (<[i := r]> (Embed.W s))
                             (Embed.found s + 1) (Embed.not_found s)
               | None => Embed.State (Embed.W s)
                           (Embed.found s) (Embed.not_found s + 1)
               end) in Hb.
    assert (Hlen1 : length (Embed.W s1) = length (Embed.W s)).
    { subst s1. destruct (written _ _ i w); simpl;
        now rewrite ?length_insert. }
    assert (Hother : forall j : nat, j <> i ->
              Embed.W s1 !! j = Embed.W s !! j).
    { intros j Hj. subst s1. destruct (written _ _ i w); simpl;
        now rewrite ?list_lookup_insert_ne. }
    destruct (IH (S i) s1)
      as (s' & Hp & Hlen & Hf & Hnf & Hbefore & Hafter & Hrows).
    rewrite Hlen1 in Hf, Hnf, Hrows.
    exists s'. simpl. rewrite Hb. simpl.
    split; [exact Hp|]. split; [congruence|].
    split; [|split; [|split; [|split]]].
    + rewrite Hf. subst s1. destruct (written _ _ i w); simpl; lia.
    + rewrite Hnf. subst s1. destruct (written _ _ i w); simpl; lia.
    + intros j Hj. rewrite Hbefore by lia. apply Hother. lia.
    + intros j Hj. rewrite Hafter by lia. apply Hother. lia.
    + intros [|k] w' Hk.
      * injection Hk as <-. rewrite Nat.add_0_r.
        rewrite Hbefore by lia. subst s1.
        unfold Fill.written.
        destruct (get_vector w) as [v|e]; simpl; [|reflexivity].
        destruct (decide (i < length (Embed.W s))%nat) as [Hi|Hi]; simpl;
          [|reflexivity].
        destruct (decide (length v = cols)); simpl.
        -- now apply list_lookup_insert_eq.
        -- destruct v as [|x [|y v]]; simpl; try reflexivity.
           now apply list_lookup_insert_eq.
      * simpl in Hk. replace (i + S k)%nat with (S i + k)%nat by lia.
        rewrite (Hrows k w' Hk).
        destruct (written _ _ (S i + k) w'); [reflexivity|].
        apply Hother. lia.
Qed.

Lemma filter_known_split (ws : list string) :
  (length (filter (fun w => known w = true) ws)
   + length (filter (fun w => known w = false) ws) = length ws)%nat.
Proof.
  induction ws as [|w ws IH]; [reflexivity|].
  rewrite !filter_cons.
  destruct (known w) eqn:Hk; simpl.
  - destruct (decide (true = true)); [|congruence].
    destruct (decide (true = false)); [discriminate|]. simpl. lia.
  - destruct (decide (false = true)); [discriminate|].
    destruct (decide (false = false)); [|congruence]. simpl. lia.
Qed.

(** Inside the matrix, with vectors of the embedding size, the assignment
    succeeds exactly for the words Word2Vec knows. *)
Lemma written_inside (cols rows i : nat) (w : string) :
  (i < rows)%nat ->
  (forall v, get_vector w = Ok v -> length v = cols) ->
  written cols rows i w
  = match get_vector w with Ok v => Some v | Raise _ => None end.
Proof.
  intros Hi Hv. unfold Fill.written.
  destruct (get_vector w) as [v|e]; [|reflexivity].
  destruct (decide (i < rows)%nat); [|lia].
  destruct (decide (length v = cols)) as [|Hne]; [reflexivity|].
  now specialize (Hv v eq_refl).
Qed.

Lemma hits_inside (cols rows : nat) (ws : list string) :
  forall i : nat,
    (i + length ws <= rows)%nat ->
    (forall w v, w ∈ ws -> get_vector w = Ok v -> length v = cols) ->
    hits cols rows i ws = length (filter (fun w => known w = true) ws).
Proof.
  induction ws as [|w ws IH]; intros i Hfit Hv; [reflexivity|].
  simpl in Hfit. simpl. rewrite filter_cons.
  rewrite (IH (S i)) by
    (try lia; intros w' v' Hin; apply Hv; now apply list_elem_of_further).
  rewrite (written_inside cols rows i w) by
    (try lia; intros v; apply Hv; apply list_elem_of_here).
  unfold Embed.known.
  destruct (get_vector w) as [v|e]; simpl.
  - destruct (decide (true = true)); [reflexivity|congruence].
  - destruct (decide (false = true)); [discriminate|reflexivity].
Qed.

(** When every word has a vector of the embedding size, the assignment
    succeeds exactly for the indices inside the matrix. *)
Lemma hits_all_known (cols rows : nat) (ws : list string) :
  forall i : nat,
    (forall w, w ∈ ws -> exists v, get_vector w = Ok v /\ length v = cols) ->
    hits cols rows i ws = (Nat.min (i + length ws) rows - Nat.min i rows)%nat.
Proof.
  induction ws as [|w ws IH]; intros i Hv;
    cbn [Fill.hits length]; [lia|].
  rewrite (IH (S i)) by
    (intros w' Hin; apply Hv; now apply list_elem_of_further).
  destruct (Hv w (list_elem_of_here _ _)) as (v & Hw & Hlen).
  unfold Fill.written. rewrite Hw.
  destruct (decide (i < rows)%nat).
  - destruct (decide (length v = cols)); [|congruence]. lia.
  - lia.
Qed.

End PopulateExact.

Section PopulateCell.
Variable get_vector : string -> result (list R).
Variable vocab : list string.
Variable VOCAB_SIZE : nat.

Local Abbreviation known := (Embed.known get_vector).
Local Abbreviation populate := (Embed.populate get_vector vocab VOCAB_SIZE).

(** X16: when the vocabulary fits in the matrix and every vector has the
    embedding size, [found] is the number of vocabulary words Word2Vec
    knows and [not_found] the number of those it does not know. *)
Theorem populate_counts (hello : list R) :
  get_vector "hello" = Ok hello ->
  (length vocab <= VOCAB_SIZE)%nat ->
  (forall w v, w ∈ vocab -> get_vector w = Ok v -> length v = length hello) ->
  exists s, populate = Ok s
    /\ Embed.found s = length (filter (fun w => known w = true) vocab)
    /\ Embed.not_found s = length (filter (fun w => known w = false) vocab).
Proof.
  intros Hhello Hfit Hv. unfold Embed.populate. rewrite Hhello. simpl.
  destruct (populate_from_exact get_vector (length hello) vocab 0
              (Embed.State (Embed.zeros VOCAB_SIZE (length hello)) 0 0))
    as (s & Hp & _ & Hf & Hnf & _).
  simpl in Hf, Hnf. unfold Embed.zeros in Hf, Hnf.
  rewrite length_replicate in Hf, Hnf.
  rewrite (hits_inside get_vector (length hello) VOCAB_SIZE vocab 0)
    in Hf, Hnf by (try exact Hv; simpl; lia).
  pose proof (filter_known_split get_vector vocab) as Hsplit.
  exists s. split; [exact Hp|]. split; [exact Hf|]. lia.
Qed.

(** X17: under the same conditions the matrix keeps its [VOCAB_SIZE] rows;
    row [i] holds the vector of the [i]-th vocabulary word when Word2Vec
    knows it, and stays a row of zeros when it does not or when [i] is past
    the vocabulary. *)
Theorem populate_rows (hello : list R) :
  get_vector "hello" = Ok hello ->
  (length vocab <= VOCAB_SIZE)%nat ->
  (forall w v, w ∈ vocab -> get_vector w = Ok v -> length v = length hello) ->
  exists s, populate = Ok s
    /\ length (Embed.W s) = VOCAB_SIZE
    /\ (forall (i : nat) (w : string), vocab !! i = Some w ->
          Embed.W s !! i
          = Some (match get_vector w with
                  | Ok v => v
                  | Raise _ => replicate (length hello) 0%R
                  end))
    /\ (forall i : nat, (length vocab <= i < VOCAB_SIZE)%nat ->
          Embed.W s !! i = Some (replicate (length hello) 0%R)).
Proof.
  intros Hhello Hfit Hv. unfold Embed.populate. rewrite Hhello. simpl.
  destruct (populate_from_exact get_vector (length hello) vocab 0
              (Embed.State (Embed.zeros VOCAB_SIZE (length hello)) 0 0))
    as (s & Hp & Hlen & _ & _ & _ & Hafter & Hrows).
  simpl in Hlen, Hafter, Hrows. unfold Embed.zeros in Hlen, Hafter, Hrows.
  rewrite length_replicate in Hlen, Hrows.
  exists s. split; [exact Hp|]. split; [exact Hlen|]. split.
  - intros i w Hi. rewrite (Hrows i w Hi).
    pose proof (lookup_lt_Some _ _ _ Hi) as Hlt.
    rewrite (written_inside get_vector (length hello) VOCAB_SIZE i w)
      by (try lia; intros v; apply Hv; now apply (list_elem_of_lookup_2 _ i)).
    destruct (get_vector w) as [v|e]; [reflexivity|].
    apply lookup_replicate_2. lia.
  - intros i Hi. rewrite Hafter by lia. apply lookup_replicate_2. lia.
Qed.

(** X18: a word at an index past the matrix is counted as missing even
    though Word2Vec knows it: when every vocabulary word has a vector of
    the embedding size, [found] is the smaller of the vocabulary's length
    and [VOCAB_SIZE], and [not_found] counts the words past [VOCAB_SIZE]. *)
Theorem populate_counts_overflow_as_missing (hello : list R) :
  get_vector "hello" = Ok hello ->
  (forall w, w ∈ vocab ->
     exists v, get_vector w = Ok v /\ length v = length hello) ->
  exists s, populate = Ok s
    /\ Embed.found s = Nat.min (length vocab) VOCAB_SIZE
    /\ Embed.not_found s = (length vocab - VOCAB_SIZE)%nat.
Proof.
  intros Hhello Hv. unfold Embed.populate. rewrite Hhello. simpl.
  destruct (populate_from_exact get_vector (length hello) vocab 0
              (Embed.State (Embed.zeros VOCAB_SIZE (length hello)) 0 0))
    as (s & Hp & _ & Hf & Hnf & _).
  simpl in Hf, Hnf. unfold Embed.zeros in Hf, Hnf.
  rewrite length_replicate in Hf, Hnf.
  rewrite (hits_all_known get_vector (length hello) VOCAB_SIZE vocab 0 Hv)
    in Hf, Hnf.
  simpl in Hf, Hnf.
  exists s. split; [exact Hp|]. split; lia.
Qed.

End PopulateCell.

Lemma populate_counts_witness :
  exists s, Embed.populate Demo.tiny_w2v ["hello"; "zzz"] 3 = Ok s
    /\ Embed.found s
       = length (filter (fun w => Embed.known Demo.tiny_w2v w = true)
                   ["hello"; "zzz"])
    /\ Embed.not_found s
       = length (filter (fun w => Embed.known Demo.tiny_w2v w = false)
                   ["hello"; "zzz"]).
Proof.
  apply (populate_counts Demo.tiny_w2v ["hello"; "zzz"] 3 [1%R; 2%R]).
  - reflexivity.
  - simpl. lia.
  - intros w v _. unfold Demo.tiny_w2v.
    destruct (String.eqb w "hello"); [|discriminate].
    now intros [= <-].
Defined.

Lemma populate_rows_witness :
  exists s, Embed.populate Demo.tiny_w2v ["zzz"; "hello"] 3 = Ok s
    /\ length (Embed.W s) = 3%nat
    /\ (forall (i : nat) (w : string), ["zzz"; "hello"] !! i = Some w ->
          Embed.W s !! i
          = Some (match Demo.tiny_w2v w with
                  | Ok v => v
                  | Raise _ => replicate (length [1%R; 2%R]) 0%R
                  end))
    /\ (forall i : nat, (length ["zzz"; "hello"] <= i < 3)%nat ->
          Embed.W s !! i = Some (replicate (length [1%R; 2%R]) 0%R)).
Proof.
  apply (populate_rows Demo.tiny_w2v ["zzz"; "hello"] 3 [1%R; 2%R]).
  - reflexivity.
  - simpl. lia.
  - intros w v _. unfold Demo.tiny_w2v.
    destruct (String.eqb w "hello"); [|discriminate].
    now intros [= <-].
Defined.

Lemma populate_counts_overflow_as_missing_witness :
  exists s, Embed.populate Demo.tiny_w2v ["hello"; "hello"; "hello"] 1 = Ok s
    /\ Embed.found s = Nat.min (length ["hello"; "hello"; "hello"]) 1
    /\ Embed.not_found s = (length ["hello"; "hello"; "hello"] - 1)%nat.
Proof.
  apply (populate_counts_overflow_as_missing Demo.tiny_w2v
           ["hello"; "hello"; "hello"] 1 [1%R; 2%R]).
  - reflexivity.
  - intros w Hw. exists [1%R; 2%R].
    repeat (apply elem_of_cons in Hw; destruct Hw as [->|Hw]);
      try (split; reflexivity).
    now apply elem_of_nil in Hw.
Defined.
